(** * Logistics-Agent: dispatch and motion simulation

    A shallow embedding of the simulation core of the repository:
    [src/models] (Location, Package, Driver), [src/agents/driver_agent.py],
    [src/agents/dispatcher.py], [src/environment/simulator.py] and
    [src/tools/routing_engine.py].

    Python objects are records; a method that mutates [self] is a function
    from the old record to the new one.  Python floats are IEEE binary64,
    modelled by Rocq's primitive floats.  A call that may raise returns a
    [result]. *)

From Stdlib Require Import ZArith Floats.
From stdpp Require Import base option list strings.

Set Default Proof Using "Type".

(* Decimal float literals are read as Python reads them: rounded to the
   nearest binary64 value. *)
Set Warnings "-inexact-float".

(** ** Exceptions *)

(** The exceptions the modelled code can meet.  Every handler in the
    repository is [except Exception], so handlers never tell them apart. *)
Inductive exn : Set :=
| ValueError          (* math domain error of [sin], [cos], [sqrt] *)
| ZeroDivisionError   (* float division by zero *)
| IndexError          (* list index out of range *)
| RequestException.   (* any failure of the HTTP call or of its decoding *)

Inductive result (A : Type) : Type :=
| Ok (a : A)
| Raise (e : exn).
Arguments Ok {A} a.
Arguments Raise {A} e.

#[global] Instance result_ret : MRet result := fun A a => Ok a.
#[global] Instance result_bind : MBind result := fun A B f m =>
  match m with
  | Ok a => f a
  | Raise e => Raise e
  end.
#[global] Instance result_fmap : FMap result := fun A B f m =>
  match m with
  | Ok a => Ok (f a)
  | Raise e => Raise e
  end.

Definition raises {A} (m : result A) : Prop :=
  match m with
  | Ok _ => False
  | Raise _ => True
  end.

Definition returns {A} (m : result A) : Prop :=
  match m with
  | Ok _ => True
  | Raise _ => False
  end.

(** ** Floats as Python uses them *)

(** [bool(x)] of a float: every value but the two zeros is true. *)
Definition float_truthy (x : float) : bool := negb (PrimFloat.eqb x 0%float).

(** [x / y] raises [ZeroDivisionError] when the divisor is a zero. *)
Definition float_div (x y : float) : result float :=
  if PrimFloat.eqb y 0%float then Raise ZeroDivisionError
  else Ok (PrimFloat.div x y).

(** ** src/config.py *)

Record Settings : Set := {
  SIMULATION_SPEED : float;
  MAX_DRIVERS : Z;
  DRIVER_SPEED_MPS : float
}.

(** The defaults of the class body of [Settings]. *)
Definition default_settings : Settings :=
  {| SIMULATION_SPEED := 1%float; MAX_DRIVERS := 4; DRIVER_SPEED_MPS := 10%float |}.

(** ** src/models/location.py *)

Module location.

Record Location : Set := {
  lat : float;
  lon : float;
  address : option string
}.

(** [Location(lat=.., lon=..)]: the address defaults to [None]. *)
Definition new (lat lon : float) : Location :=
  {| lat := lat; lon := lon; address := None |}.

End location.

Abbreviation Location := location.Location.

(** [Location.haversine_distance_m] is built from [math.radians], [sin],
    [cos], [sqrt] and [atan2], which have no counterpart among the primitive
    floats.  The development takes the method as a parameter
    [haversine_distance_m : Location -> Location -> result float]: it
    returns the metres, or raises ([math.sin] of an infinity, [math.sqrt]
    of a negative number: [ValueError]). *)
Definition distance_fn : Set := Location -> Location -> result float.

(** ** src/models/package.py *)

Module package.

Inductive PackageStatus : Set := PENDING | ASSIGNED | IN_TRANSIT | DELIVERED.

#[global] Instance PackageStatus_eq_dec : EqDecision PackageStatus.
Proof. solve_decision. Defined.

Record Package : Set := {
  id : string;
  pickup : Location;
  dropoff : Location;
  created_at : Z;
  assigned_to : option string;
  status : PackageStatus;
  priority : Z
}.

(** [Package(id=.., pickup=.., dropoff=..)] with the defaults of the class. *)
Definition new (id : string) (pickup dropoff : Location) (now : Z) : Package :=
  {| id := id; pickup := pickup; dropoff := dropoff; created_at := now;
     assigned_to := None; status := PENDING; priority := 1 |}.

Definition set_status (s : PackageStatus) (self : Package) : Package :=
  {| id := id self; pickup := pickup self; dropoff := dropoff self;
     created_at := created_at self; assigned_to := assigned_to self;
     status := s; priority := priority self |}.

Definition set_assigned_to (d : option string) (self : Package) : Package :=
  {| id := id self; pickup := pickup self; dropoff := dropoff self;
     created_at := created_at self; assigned_to := d;
     status := status self; priority := priority self |}.

Definition mark_assigned (driver_id : string) (self : Package) : Package :=
  set_status ASSIGNED (set_assigned_to (Some driver_id) self).

Definition mark_in_transit (self : Package) : Package :=
  set_status IN_TRANSIT self.

Definition mark_delivered (self : Package) : Package :=
  set_status DELIVERED self.

(** One call of a transition method. *)
Inductive call : Set :=
| MarkAssigned (driver_id : string)
| MarkInTransit
| MarkDelivered.

Definition perform (c : call) (self : Package) : Package :=
  match c with
  | MarkAssigned d => mark_assigned d self
  | MarkInTransit => mark_in_transit self
  | MarkDelivered => mark_delivered self
  end.

(** The status a call writes. *)
Definition target (c : call) : PackageStatus :=
  match c with
  | MarkAssigned _ => ASSIGNED
  | MarkInTransit => IN_TRANSIT
  | MarkDelivered => DELIVERED
  end.

(** A sequence of calls, the first of the list first. *)
Definition run (cs : list call) (self : Package) : Package :=
  foldl (fun p c => perform c p) self cs.

(** The order of the life cycle PENDING, ASSIGNED, IN_TRANSIT, DELIVERED. *)
Definition stage (s : PackageStatus) : nat :=
  match s with
  | PENDING => 0
  | ASSIGNED => 1
  | IN_TRANSIT => 2
  | DELIVERED => 3
  end.

(** The status stays or moves to the next stage of the life cycle. *)
Definition forward_step (s s' : PackageStatus) : Prop :=
  stage s' = stage s \/ stage s' = S (stage s).

Definition is_assigned_status (s : PackageStatus) : Prop :=
  s = ASSIGNED \/ s = IN_TRANSIT \/ s = DELIVERED.

End package.

Abbreviation Package := package.Package.

(** A reference to a [Package] object.  Packages live in the simulator's
    list [packages]; a reference is the position of the object there, so
    that two holders of one reference see the same object. *)
Abbreviation package_ref := nat.

(** [xs[i]] for a position [i >= 0]. *)
Definition getitem {A} (xs : list A) (i : nat) : result A :=
  match xs !! i with
  | Some x => Ok x
  | None => Raise IndexError
  end.

(** ** src/models/driver.py *)

Module driver.

Inductive DriverStatus : Set := IDLE | EN_ROUTE | DELIVERING.

#[global] Instance DriverStatus_eq_dec : EqDecision DriverStatus.
Proof. solve_decision. Defined.

Record Driver : Set := {
  id : string;
  location : Location;
  status : DriverStatus;
  assigned_packages : list package_ref;
  route : option (list Location);
  speed_mps : option float
}.

Definition set_location (l : Location) (self : Driver) : Driver :=
  {| id := id self; location := l; status := status self;
     assigned_packages := assigned_packages self; route := route self;
     speed_mps := speed_mps self |}.

Definition set_status (s : DriverStatus) (self : Driver) : Driver :=
  {| id := id self; location := location self; status := s;
     assigned_packages := assigned_packages self; route := route self;
     speed_mps := speed_mps self |}.

(** [Driver.assign_route]: [if packages:] skips [None] and the empty list. *)
Definition assign_route (route' : list Location)
    (packages : option (list package_ref)) (self : Driver) : Driver :=
  {| id := id self; location := location self; status := EN_ROUTE;
     assigned_packages :=
       match packages with
       | Some (p :: ps) => p :: ps
       | _ => assigned_packages self
       end;
     route := Some route'; speed_mps := speed_mps self |}.

Definition clear_route (self : Driver) : Driver :=
  {| id := id self; location := location self; status := IDLE;
     assigned_packages := []; route := None; speed_mps := speed_mps self |}.

(** [Driver(id=.., location=..)] with the defaults of the class. *)
Definition new (id : string) (location : Location) : Driver :=
  {| id := id; location := location; status := IDLE;
     assigned_packages := []; route := None; speed_mps := None |}.

(** The drivers the two methods of the model produce from a new one, with
    waypoints passed to [assign_route]. *)
Inductive reachable : Driver -> Prop :=
| reachable_new id location : reachable (new id location)
| reachable_assign_route route' packages self :
    reachable self -> route' <> [] ->
    reachable (assign_route route' packages self)
| reachable_clear_route self :
    reachable self -> reachable (clear_route self).

End driver.

Abbreviation Driver := driver.Driver.

(** ** src/agents/driver_agent.py *)

Module driver_agent.

Record DriverAgent : Set := {
  driver : Driver;
  _cursor : nat;
  _route : option (list Location);
  _packages : list package_ref
}.

Definition set_driver (d : Driver) (self : DriverAgent) : DriverAgent :=
  {| driver := d; _cursor := _cursor self; _route := _route self;
     _packages := _packages self |}.

Definition set_cursor (c : nat) (self : DriverAgent) : DriverAgent :=
  {| driver := driver self; _cursor := c; _route := _route self;
     _packages := _packages self |}.

(** [not self._route]: true of [None] and of the empty list. *)
Definition route_falsy (r : option (list Location)) : bool :=
  match r with
  | Some (_ :: _) => false
  | _ => true
  end.

(** The list [self._route] where it is one. *)
Definition route_list (self : DriverAgent) : list Location :=
  default [] (_route self).

(** [self._cursor >= len(self._route)]. *)
Definition cursor_past_end (self : DriverAgent) : bool :=
  bool_decide (length (route_list self) <= _cursor self).

(** [self.driver.speed_mps or default]. *)
Definition speed_or (speed : option float) (default : float) : float :=
  match speed with
  | Some s => if float_truthy s then s else default
  | None => default
  end.

Definition assign_route (route : list Location)
    (packages : option (list package_ref)) (self : DriverAgent) : DriverAgent :=
  {| driver := driver.set_status driver.EN_ROUTE (driver self);
     _cursor := 0;
     _route := Some route;
     _packages := default [] packages |}.

Definition clear_route (self : DriverAgent) : DriverAgent :=
  {| driver := driver.set_status driver.IDLE (driver self);
     _cursor := 0;
     _route := None;
     _packages := [] |}.

(** The invariant of the state machine, for callers that pass waypoints. *)
Definition consistent (a : DriverAgent) : Prop :=
  match _route a with
  | None => driver.status (driver a) = driver.IDLE /\ _cursor a = 0
  | Some route =>
      route <> [] /\ _cursor a <= length route
      /\ (driver.status (driver a) = driver.EN_ROUTE
          \/ (driver.status (driver a) = driver.IDLE
              /\ _cursor a = length route))
  end.

(** The invariant as the specification words it: IDLE exactly when the
    route is empty or absent, EN_ROUTE exactly when a waypoint remains. *)
Definition spec_invariant (a : DriverAgent) : Prop :=
  (driver.status (driver a) = driver.IDLE <-> route_falsy (_route a) = true)
  /\ (driver.status (driver a) = driver.EN_ROUTE
      <-> _cursor a < length (route_list a)).

Section WithEnvironment.

Variable settings : Settings.
Variable haversine_distance_m : distance_fn.

Definition __init__ (id : string) (start_location : Location) : DriverAgent :=
  {| driver :=
       {| driver.id := id; driver.location := start_location;
          driver.status := driver.IDLE; driver.assigned_packages := [];
          driver.route := None;
          driver.speed_mps := Some (DRIVER_SPEED_MPS settings) |};
     _cursor := 0; _route := None; _packages := [] |}.

(** The distance travelled in [dt_seconds]. *)
Definition step_of (dt_seconds : float) (self : DriverAgent) : float :=
  PrimFloat.mul
    (speed_or (driver.speed_mps (driver self)) (DRIVER_SPEED_MPS settings))
    dt_seconds.

(** The first branch of [tick]: nothing to move along. *)
Definition tick_idle (self : DriverAgent) : DriverAgent :=
  if decide (driver.status (driver self) <> driver.IDLE)
  then set_driver (driver.set_status driver.IDLE (driver self)) self
  else self.

(** The arrival branch: the location becomes the target object itself. *)
Definition arrive (target : Location) (self : DriverAgent) : DriverAgent :=
  set_cursor (S (_cursor self))
    (set_driver (driver.set_location target (driver self)) self).

(** The interpolation branch, toward [target] by the fraction [f]. *)
Definition interpolate (target : Location) (f : float) (self : DriverAgent)
    : DriverAgent :=
  let here := driver.location (driver self) in
  let lat := (location.lat here
              + (location.lat target - location.lat here) * f)%float in
  let lon := (location.lon here
              + (location.lon target - location.lon here) * f)%float in
  set_driver (driver.set_location (location.new lat lon) (driver self)) self.

(** [DriverAgent.tick].  An exception leaves [self] as it was: the only
    calls that can raise come before the first assignment. *)
Definition tick (dt_seconds : float) (self : DriverAgent)
    : result DriverAgent :=
  if route_falsy (_route self) || cursor_past_end self then
    Ok (tick_idle self)
  else
    target ← getitem (route_list self) (_cursor self);
    dist ← haversine_distance_m (driver.location (driver self)) target;
    let step := step_of dt_seconds self in
    if PrimFloat.leb dist step || PrimFloat.ltb dist 1%float then
      Ok (arrive target self)
    else
      f ← float_div step dist;
      Ok (interpolate target f self).

(** [n] calls of [tick], each on the state the one before left. *)
Fixpoint ticks (dt_seconds : float) (n : nat) (self : DriverAgent)
    : result DriverAgent :=
  match n with
  | 0 => Ok self
  | S n' => self' ← tick dt_seconds self; ticks dt_seconds n' self'
  end.

(** The agents the public operations produce from a constructed one;
    [allowed] is what callers of [assign_route] pass as waypoints. *)
Inductive reachable (allowed : list Location -> Prop) : DriverAgent -> Prop :=
| reachable_init id start_location :
    reachable allowed (__init__ id start_location)
| reachable_tick dt self self' :
    reachable allowed self -> tick dt self = Ok self' ->
    reachable allowed self'
| reachable_assign_route route packages self :
    reachable allowed self -> allowed route ->
    reachable allowed (assign_route route packages self)
| reachable_clear_route self :
    reachable allowed self -> reachable allowed (clear_route self).

(** Every tick along [route] from [here] arrives: the distance to the
    waypoint is defined and within the travel budget [step]. *)
Fixpoint budget_suffices (step : float) (here : Location)
    (route : list Location) : Prop :=
  match route with
  | [] => True
  | w :: ws =>
      (exists dist, haversine_distance_m here w = Ok dist
                    /\ PrimFloat.leb dist step = true)
      /\ budget_suffices step w ws
  end.

End WithEnvironment.

End driver_agent.

Abbreviation DriverAgent := driver_agent.DriverAgent.

(** [xs[i] = v] for a position [i >= 0]: out of range it raises. *)
Definition setitem {A} (xs : list A) (i : nat) (v : A) : result (list A) :=
  if decide (i < length xs) then Ok (<[i:=v]> xs) else Raise IndexError.

(** [for x in xs: s = body(x, s)], left when [body] raises. *)
Fixpoint for_each {A S} (xs : list A) (body : A -> S -> result S) (s : S)
    : result S :=
  match xs with
  | [] => Ok s
  | x :: xs' => s' ← body x s; for_each xs' body s'
  end.

(** ** src/tools/routing_engine.py *)

Module routing_engine.

(** The dictionary [get_route] returns; OSRM may leave either entry out. *)
Record RouteInfo : Set := {
  duration_s : option float;
  distance_m : option float
}.

Abbreviation matrix := (list (list float)).

(** [mat[i][j] = v]. *)
Definition setitem2 (mat : matrix) (i j : nat) (v : float) : result matrix :=
  row ← getitem mat i;
  row' ← setitem row j v;
  setitem mat i row'.

(** [mat[i][j]] as a value, [None] out of range. *)
Definition get2 (mat : matrix) (i j : nat) : option float :=
  row ← mat !! i; row !! j.

(** [n] rows of [n] entries. *)
Definition square (n : nat) (mat : matrix) : Prop :=
  length mat = n /\ Forall (fun row => length row = n) mat.

Section WithEnvironment.

Variable haversine_distance_m : distance_fn.

(** The OSRM server is outside the program.  [osrm_route] is what the body
    of the [try] of [get_route] ends with: the decoded first route, or any
    exception of the request and of its decoding.  [osrm_table] is the same
    for [get_duration_matrix], up to [durations = data.get(..)], [None]
    when the key is missing. *)
Variable osrm_route : Location -> Location -> result RouteInfo.
Variable osrm_table : list Location -> result (option matrix).

Definition get_route (origin destination : Location) : result RouteInfo :=
  match osrm_route origin destination with
  | Ok r => Ok r
  | Raise _ =>
      distance ← haversine_distance_m origin destination;
      let duration :=
        if PrimFloat.ltb 0%float distance
        then PrimFloat.div distance 11.11%float
        else 0%float in
      Ok {| duration_s := Some duration; distance_m := Some distance |}
  end.

(** The loops after the [try] of [get_duration_matrix]. *)
Definition fallback_matrix (points : list Location) : result matrix :=
  let n := length points in
  let mat := replicate n (replicate n 0%float) in
  for_each (seq 0 n) (fun i mat =>
    for_each (seq 0 n) (fun j mat =>
      if decide (i = j) then setitem2 mat i j 0%float
      else
        p_i ← getitem points i;
        p_j ← getitem points j;
        d ← haversine_distance_m p_i p_j;
        setitem2 mat i j (PrimFloat.div d 11.11%float)) mat) mat.

(** The metres between the points at [i] and [j], where defined. *)
Definition pair_distance (points : list Location) (i j : nat) : float :=
  match points !! i, points !! j with
  | Some p, Some q =>
      match haversine_distance_m p q with
      | Ok d => d
      | Raise _ => 0%float
      end
  | _, _ => 0%float
  end.

(** The entry the fallback writes at [i], [j]. *)
Definition fallback_entry (points : list Location) (i j : nat) : float :=
  if decide (i = j) then 0%float
  else PrimFloat.div (pair_distance points i j) 11.11%float.

(** [if durations: return durations] takes a non-empty list only. *)
Definition get_duration_matrix (points : list Location) : result matrix :=
  if decide (length points < 2) then Ok [[0%float]]
  else
    match osrm_table points with
    | Ok (Some (row :: rows)) => Ok (row :: rows)
    | _ => fallback_matrix points
    end.

End WithEnvironment.

End routing_engine.

(** ** src/environment/simulator.py *)

Module simulator.

Record EnvironmentSimulator : Set := {
  current_time : Z;
  drivers : list DriverAgent;
  packages : list Package;
  _tick_seconds : float
}.

Definition __init__ (now : Z) : EnvironmentSimulator :=
  {| current_time := now; drivers := []; packages := [];
     _tick_seconds := 1%float |}.

Definition set_drivers (ds : list DriverAgent) (self : EnvironmentSimulator)
    : EnvironmentSimulator :=
  {| current_time := current_time self; drivers := ds;
     packages := packages self; _tick_seconds := _tick_seconds self |}.

Definition set_packages (ps : list Package) (self : EnvironmentSimulator)
    : EnvironmentSimulator :=
  {| current_time := current_time self; drivers := drivers self;
     packages := ps; _tick_seconds := _tick_seconds self |}.

Definition add_driver (driver_agent : DriverAgent)
    (self : EnvironmentSimulator) : EnvironmentSimulator :=
  set_drivers (drivers self ++ [driver_agent]) self.

Definition add_package (pkg : Package) (self : EnvironmentSimulator)
    : EnvironmentSimulator :=
  set_packages (packages self ++ [pkg]) self.

Definition create_demo_orders (now : Z) (self : EnvironmentSimulator)
    : EnvironmentSimulator :=
  let p1 := package.new "pkg_1"
              (location.new 19.07283%float 72.88261%float)
              (location.new 19.08283%float 72.89261%float) now in
  let p2 := package.new "pkg_2"
              (location.new 19.06283%float 72.87261%float)
              (location.new 19.09283%float 72.90261%float) now in
  add_package p2 (add_package p1 self).

(** What [snapshot] returns: the [Driver] objects of the agents and a new
    list of the same [Package] objects. *)
Record Snapshot : Set := {
  snap_time : Z;
  snap_drivers : list Driver;
  snap_packages : list package_ref
}.

Definition snapshot (self : EnvironmentSimulator) : Snapshot :=
  {| snap_time := current_time self;
     snap_drivers := map driver_agent.driver (drivers self);
     snap_packages := seq 0 (length (packages self)) |}.

Section WithEnvironment.

Variable settings : Settings.
Variable haversine_distance_m : distance_fn.

(** The body of the loop of [_tick]: the [try] around [d.tick]. *)
Definition try_tick (dt : float) (d : DriverAgent) : DriverAgent :=
  match driver_agent.tick settings haversine_distance_m dt d with
  | Ok d' => d'
  | Raise _ => d
  end.

(** [EnvironmentSimulator._tick]; the agents of the list are taken to be
    distinct objects. *)
Definition _tick (self : EnvironmentSimulator) : EnvironmentSimulator :=
  set_drivers (map (try_tick (_tick_seconds self)) (drivers self)) self.

End WithEnvironment.

End simulator.

Abbreviation EnvironmentSimulator := simulator.EnvironmentSimulator.

(** ** src/agents/dispatcher.py *)

Module dispatcher.

(** [list.sort(key=..)] on floats: a stable sort that compares keys with
    [<] only.  This is the insertion sort; on keys that [<] orders (no NaN
    among them) every stable sort gives this list, and on two elements it
    is what [list.sort] does for any keys.  With a NaN among three keys or
    more [list.sort] may order the list differently; what is proved below
    of the order is for two keys or for keys without a NaN, and the rest
    uses only that the sorted list holds the same references. *)
Fixpoint insert_keyed {A} (x : float * A) (l : list (float * A))
    : list (float * A) :=
  match l with
  | [] => [x]
  | y :: l' =>
      if PrimFloat.ltb (fst y) (fst x) then y :: insert_keyed x l'
      else x :: y :: l'
  end.

Fixpoint sort_keyed {A} (l : list (float * A)) : list (float * A) :=
  match l with
  | [] => []
  | x :: l' => insert_keyed x (sort_keyed l')
  end.

(** [p.status == p.status.PENDING] for the object behind a reference. *)
Definition is_pending (pkgs : list Package) (ref : package_ref) : Prop :=
  package.status <$> pkgs !! ref = Some package.PENDING.

#[global] Instance is_pending_dec pkgs ref : Decision (is_pending pkgs ref).
Proof. unfold is_pending. apply _. Defined.

Definition is_idle (d : Driver) : Prop := driver.status d = driver.IDLE.

#[global] Instance is_idle_dec d : Decision (is_idle d).
Proof. unfold is_idle. apply _. Defined.

(** [d_agent.driver.status != d_agent.driver.status.IDLE]. *)
Definition busy (a : DriverAgent) : Prop :=
  driver.status (driver_agent.driver a) <> driver.IDLE.

(** The state of the simulator the loop of [_tick] works on, and the
    exception that ended it, if one did. *)
Abbreviation outcome := (list DriverAgent * list Package * option exn)%type.

Section WithEnvironment.

Variable haversine_distance_m : distance_fn.
Variable osrm_route : Location -> Location -> result routing_engine.RouteInfo.

Abbreviation get_route :=
  (routing_engine.get_route haversine_distance_m osrm_route).

(** [packages.sort(key=lambda p: driver_loc.haversine_distance_m(p.pickup))]:
    the keys are computed first, in the order of the list. *)
Definition sort_by_distance (driver_loc : Location)
    (pkgs : list Package) (pending : list package_ref)
    : result (list package_ref) :=
  keyed ← mapM (fun ref =>
                  p ← getitem pkgs ref;
                  k ← haversine_distance_m driver_loc (package.pickup p);
                  mret (k, ref)) pending;
  mret (snd <$> sort_keyed keyed).

(** Lines 51 to 56 of the loop body: all that can raise, and all of it
    before the first assignment to an object of the simulator. *)
Definition choose (driver_loc : Location) (pkgs : list Package)
    (pending : list package_ref)
    : result (package_ref * Package * list package_ref) :=
  sorted ← sort_by_distance driver_loc pkgs pending;
  match sorted with
  | [] => Raise IndexError
  | ref :: pending' =>
      pkg ← getitem pkgs ref;
      r1 ← get_route driver_loc (package.pickup pkg);
      r2 ← get_route (package.pickup pkg) (package.dropoff pkg);
      mret (ref, pkg, pending')
  end.

(** [for d_agent in self.simulator.drivers: ...] on the agents still to
    visit; [pending] is the local list [packages].  A position of
    [agents] or [pkgs] stands for one object: this is the loop on lists
    that hold no object twice, as the lists of the running program do,
    where [add_driver] and [add_package] get newly built objects. *)
Fixpoint assign_loop (agents : list DriverAgent) (pending : list package_ref)
    (pkgs : list Package) : outcome :=
  match agents with
  | [] => ([], pkgs, None)
  | d_agent :: rest =>
      if decide (driver.status (driver_agent.driver d_agent) <> driver.IDLE)
      then
        let '(rest', pkgs', e) := assign_loop rest pending pkgs in
        (d_agent :: rest', pkgs', e)
      else
        match pending with
        | [] => (d_agent :: rest, pkgs, None)
        | _ :: _ =>
            let driver_loc := driver.location (driver_agent.driver d_agent) in
            match choose driver_loc pkgs pending with
            | Raise e => (d_agent :: rest, pkgs, Some e)
            | Ok (ref, pkg, pending') =>
                let route_points :=
                  [driver_loc; package.pickup pkg; package.dropoff pkg] in
                let d_agent' :=
                  driver_agent.assign_route route_points (Some [ref]) d_agent in
                let pkgs' :=
                  <[ref := package.mark_assigned
                             (driver.id (driver_agent.driver d_agent)) pkg]>
                    pkgs in
                let '(rest', pkgs'', e) := assign_loop rest pending' pkgs' in
                (d_agent' :: rest', pkgs'', e)
            end
        end
  end.

(** [DispatcherAgent._tick]: the simulator after the call, and the
    exception the call raised, if any. *)
Definition _tick (sim : EnvironmentSimulator)
    : EnvironmentSimulator * option exn :=
  let snap := simulator.snapshot sim in
  let drivers := filter is_idle (simulator.snap_drivers snap) in
  let packages :=
    filter (is_pending (simulator.packages sim))
           (simulator.snap_packages snap) in
  match drivers, packages with
  | [], _ | _, [] => (sim, None)
  | _, _ =>
      let '(agents', pkgs', e) :=
        assign_loop (simulator.drivers sim) packages
                    (simulator.packages sim) in
      (simulator.set_packages pkgs' (simulator.set_drivers agents' sim), e)
  end.

End WithEnvironment.

End dispatcher.

(** ** The demo world of [tests/] and of [create_demo_orders] *)

Module demo.

Definition home : Location := location.new 19.07%float 72.87%float.
Definition pickup_1 : Location := location.new 19.07283%float 72.88261%float.
Definition dropoff_1 : Location := location.new 19.08283%float 72.89261%float.
Definition pickup_2 : Location := location.new 19.06283%float 72.87261%float.
Definition dropoff_2 : Location := location.new 19.09283%float 72.90261%float.
Definition point_a : Location := location.new 19.0%float 72.0%float.
Definition point_b : Location := location.new 19.01%float 72.01%float.

(** A position no driver can reach: [math.sin] raises on its latitude. *)
Definition nowhere : Location := location.new infinity 72.87%float.

Definition same_point (a b : Location) : bool :=
  PrimFloat.eqb (location.lat a) (location.lat b)
  && PrimFloat.eqb (location.lon a) (location.lon b).

Definition is_infinite (x : float) : bool :=
  PrimFloat.eqb (PrimFloat.abs x) infinity.

Definition off_the_globe (a : Location) : bool :=
  is_infinite (location.lat a) || is_infinite (location.lon a).

(** The metres the formula of [haversine_distance_m] gives between the
    points above, in binary64. *)
Definition distances : list (Location * Location * float) :=
  [ (home, pickup_1, 0x1.54838d4b1e1e9p+10%float);
    (home, pickup_2, 0x1.a5912403a41dep+9%float);
    (pickup_1, dropoff_1, 0x1.7e7d4fb0e28fcp+10%float);
    (pickup_2, dropoff_2, 0x1.1eddfba2de749p+12%float);
    (point_a, point_b, 0x1.7e9195b0ed7aep+10%float) ].

Definition listed (a b : Location) (entry : Location * Location * float)
    : bool :=
  let '(p, q, _) := entry in
  (same_point p a && same_point q b) || (same_point p b && same_point q a).

(** [haversine_distance_m] on the demo points: a [ValueError] for an
    infinite coordinate, zero from a point to itself, the listed metres
    between listed points.  Other pairs are outside the demo and answered
    with the exception as well. *)
Definition haversine_distance_m : distance_fn := fun a b =>
  if off_the_globe a || off_the_globe b then Raise ValueError
  else if same_point a b then Ok 0%float
  else
    match List.find (listed a b) distances with
    | Some (_, _, d) => Ok d
    | None => Raise ValueError
    end.

(** The routing server of the tests, [http://invalid-host]: every request
    fails. *)
Definition osrm_route : Location -> Location -> result routing_engine.RouteInfo :=
  fun _ _ => Raise RequestException.

Definition osrm_table
    : list Location -> result (option routing_engine.matrix) :=
  fun _ => Raise RequestException.

Definition new_agent (id : string) (start : Location) : DriverAgent :=
  driver_agent.__init__ default_settings id start.

Definition package_1 : Package := package.new "pkg_1" pickup_1 dropoff_1 0.
Definition package_2 : Package := package.new "pkg_2" pickup_2 dropoff_2 0.

(** The simulator of [test_dispatch_assigns_package]. *)
Definition world : EnvironmentSimulator :=
  simulator.create_demo_orders 0
    (simulator.add_driver (new_agent "d1" home) (simulator.__init__ 0)).

End demo.

(** ** The order of floats *)

(** Where a float that is no NaN stands: below zero, zero or above, then
    by exponent and mantissa.  [<] on floats is the lexicographic order
    of these triples. *)
Definition sf_rank (x : spec_float) : Z * Z * Z :=
  match x with
  | S754_nan => (0, 0, 0)%Z
  | S754_zero _ => (0, 0, 0)%Z
  | S754_infinity true => (-2, 0, 0)%Z
  | S754_infinity false => (2, 0, 0)%Z
  | S754_finite true m e => (-1, - e, - Z.pos m)%Z
  | S754_finite false m e => (1, e, Z.pos m)%Z
  end.

Definition lex_lt (a b : Z * Z * Z) : Prop :=
  (a.1.1 < b.1.1
   \/ (a.1.1 = b.1.1
       /\ (a.1.2 < b.1.2 \/ (a.1.2 = b.1.2 /\ a.2 < b.2))))%Z.

(** [math.isnan]. *)
Definition float_is_nan (x : float) : bool := negb (PrimFloat.eqb x x).

(** ** src/tools/route_optimizer.py *)

(** [xs[i]] for any integer [i]: a negative index counts from the end. *)
Definition getitem_int {A} (xs : list A) (i : Z) : result A :=
  if decide (0 <= i)%Z then getitem xs (Z.to_nat i)
  else if decide (- Z.of_nat (length xs) <= i)%Z
       then getitem xs (Z.to_nat (Z.of_nat (length xs) + i))
       else Raise IndexError.

Module route_optimizer.

Abbreviation matrix := (list (list float)).
Abbreviation routes := (list (list Z)).

(** [lambda x: mat[cur][x]]. *)
Definition key (mat : matrix) (cur : Z) (x : nat) : result float :=
  row ← getitem_int mat cur;
  getitem row x.

(** The loop of [min(iterable, key=..)] after its first item: an item
    replaces the best one when its key is [<] the best key. *)
Fixpoint min_from (key : nat -> result float) (best : nat) (k_best : float)
    (rest : list nat) : result nat :=
  match rest with
  | [] => Ok best
  | x :: rest' =>
      k ← key x;
      if PrimFloat.ltb k k_best then min_from key x k rest'
      else min_from key best k_best rest'
  end.

(** [min(xs, key=key)]; on an empty iterable it raises [ValueError]. *)
Definition py_min (key : nat -> result float) (xs : list nat) : result nat :=
  match xs with
  | [] => Raise ValueError
  | x :: rest => k ← key x; min_from key x k rest
  end.

(** The [while unvisited:] loop for one vehicle.  [unvisited] is the set
    in its iteration order, which for a set of small integers is the
    ascending one; [discard] keeps the order of the others.  Every pass
    takes one node out of [unvisited], so [length unvisited] passes are
    enough: [fuel] counts them, and [None] is a loop cut short. *)
Fixpoint fill (fuel : nat) (mat : matrix) (cap : Z) (cur : Z)
    (route : list Z) (unvisited : list nat)
    : option (result (list Z * list nat)) :=
  match unvisited with
  | [] => Some (Ok (route, unvisited))
  | _ :: _ =>
      match fuel with
      | 0 => None
      | S fuel' =>
          match py_min (key mat cur) unvisited with
          | Raise e => Some (Raise e)
          | Ok next_node =>
              let route' := route ++ [Z.of_nat next_node] in
              let unvisited' := filter (fun x => x <> next_node) unvisited in
              if decide (cap < Z.of_nat (length route'))%Z
              then Some (Ok (route', unvisited'))
              else fill fuel' mat cap (Z.of_nat next_node) route' unvisited'
          end
      end
  end.

(** [for v in range(vehicle_count):] with [count] vehicles to go; the
    routes of the earlier vehicles are complete and come first. *)
Fixpoint vehicles (count : nat) (mat : matrix) (cap depot : Z)
    (unvisited : list nat) : option (result routes) :=
  match count with
  | 0 => Some (Ok [])
  | S count' =>
      match fill (length unvisited) mat cap depot [depot] unvisited with
      | None => None
      | Some (Raise e) => Some (Raise e)
      | Some (Ok (route, unvisited')) =>
          match vehicles count' mat cap depot unvisited' with
          | Some (Ok rest) => Some (Ok (route :: rest))
          | other => other
          end
      end
  end.

(** [max(2, n // vehicle_count + 1)], computed when a vehicle exists. *)
Definition cap (n : nat) (vehicle_count : Z) : Z :=
  Z.max 2 (Z.of_nat n / vehicle_count + 1).

(** [unvisited = set(range(n)); unvisited.discard(depot)]. *)
Definition start_unvisited (n : nat) (depot : Z) : list nat :=
  filter (fun x => Z.of_nat x <> depot) (seq 0 n).

Definition _solve_greedy (mat : matrix) (vehicle_count depot : Z)
    : option (result routes) :=
  let n := length mat in
  vehicles (Z.to_nat vehicle_count) mat (cap n vehicle_count) depot
    (start_unvisited n depot).

Section WithSolver.

(** OR-Tools is outside the program: whether its import succeeded, and
    what [_solve_ortools] returns. *)
Variable ortools_available : bool.
Variable _solve_ortools : matrix -> Z -> Z -> option (result routes).


End WithSolver.

(** The nodes the routes visit after their start. *)
Definition visited (rs : routes) : list Z := concat (tail <$> rs).

(** Every row has an entry for every node, and the depot is an index of
    the matrix, from either end. *)
Definition well_formed (mat : matrix) (depot : Z) : Prop :=
  Forall (fun row => length mat <= length row) mat
  /\ (- Z.of_nat (length mat) <= depot < Z.of_nat (length mat))%Z.

End route_optimizer.

(** ** Counting the fleet *)

Module fleet.

(** The agents a dispatcher would take: those whose driver is IDLE. *)
Definition n_idle (agents : list DriverAgent) : nat :=
  length (filter (fun a => dispatcher.is_idle (driver_agent.driver a)) agents).

(** The packages still waiting for a driver. *)
Definition n_pending (pkgs : list Package) : nat :=
  length (filter (fun p => package.status p = package.PENDING) pkgs).

(** What one tick of the dispatcher may do to an agent: nothing, or send
    an IDLE agent to the pickup and the dropoff of a package [r] that was
    PENDING in [pkgs] and is ASSIGNED to this driver in [pkgs']. *)
Definition dispatched (pending : list package_ref) (pkgs pkgs' : list Package)
    (a a' : DriverAgent) : Prop :=
  a' = a
  \/ (driver.status (driver_agent.driver a) = driver.IDLE
      /\ exists r p,
           r ∈ pending
           /\ pkgs !! r = Some p
           /\ package.status p = package.PENDING
           /\ a' = driver_agent.assign_route
                     [driver.location (driver_agent.driver a);
                      package.pickup p; package.dropoff p]
                     (Some [r]) a
           /\ pkgs' !! r
              = Some (package.mark_assigned
                        (driver.id (driver_agent.driver a)) p)).

(** What it may do to the package at one position: nothing, or mark a
    PENDING package as assigned to an agent that was IDLE. *)
Definition assigned_step (agents : list DriverAgent) (p : Package)
    (p' : Package) : Prop :=
  p' = p
  \/ (package.status p = package.PENDING
      /\ exists a,
           a ∈ agents
           /\ driver.status (driver_agent.driver a) = driver.IDLE
           /\ p' = package.mark_assigned
                     (driver.id (driver_agent.driver a)) p).

(** The ids of the drivers of the fleet. *)
Definition driver_ids (agents : list DriverAgent) : list string :=
  map (fun a => driver.id (driver_agent.driver a)) agents.

(** A package as the running system keeps it: PENDING with no driver, or
    ASSIGNED to a driver of the fleet. *)
Definition package_ok (ids : list string) (p : Package) : Prop :=
  (package.status p = package.PENDING /\ package.assigned_to p = None)
  \/ (package.status p = package.ASSIGNED
      /\ exists id, package.assigned_to p = Some id /\ id ∈ ids).

(** The packages an agent holds are packages of the simulator that are
    ASSIGNED to its driver. *)
Definition holds_assigned (pkgs : list Package) (a : DriverAgent) : Prop :=
  forall r, r ∈ driver_agent._packages a ->
    exists p, pkgs !! r = Some p
              /\ package.status p = package.ASSIGNED
              /\ package.assigned_to p
                 = Some (driver.id (driver_agent.driver a)).

Definition world_ok (sim : EnvironmentSimulator) : Prop :=
  Forall (package_ok (driver_ids (simulator.drivers sim)))
         (simulator.packages sim)
  /\ Forall driver_agent.consistent (simulator.drivers sim)
  /\ Forall (holds_assigned (simulator.packages sim)) (simulator.drivers sim).

(** [self.current_time = datetime.utcnow()] in [run_loop]. *)
Definition set_current_time (now : Z) (self : EnvironmentSimulator)
    : EnvironmentSimulator :=
  {| simulator.current_time := now;
     simulator.drivers := simulator.drivers self;
     simulator.packages := simulator.packages self;
     simulator._tick_seconds := simulator._tick_seconds self |}.

Section Run.

Variable settings : Settings.
Variable haversine_distance_m : distance_fn.
Variable osrm_route : Location -> Location -> result routing_engine.RouteInfo.

(** The distance from [here] to the pickup of the package behind [r]. *)
Definition pickup_distance (here : Location) (pkgs : list Package)
    (r : package_ref) (d : float) : Prop :=
  exists p, pkgs !! r = Some p
            /\ haversine_distance_m here (package.pickup p) = Ok d.

(** What the program does to the simulator: [main] adds constructed
    drivers and new packages, and the loops set the clock, tick the
    drivers and tick the dispatcher.  No tick contains an [await] that
    yields, so the ticks of the loops do not interleave. *)
Inductive step : EnvironmentSimulator -> EnvironmentSimulator -> Prop :=
| step_add_driver sim id start :
    step sim
      (simulator.add_driver (driver_agent.__init__ settings id start) sim)
| step_add_package sim id pickup dropoff now :
    step sim (simulator.add_package (package.new id pickup dropoff now) sim)
| step_clock sim now :
    step sim (set_current_time now sim)
| step_motion sim :
    step sim (simulator._tick settings haversine_distance_m sim)
| step_dispatch sim :
    step sim (dispatcher._tick haversine_distance_m osrm_route sim).1.

Inductive reachable : EnvironmentSimulator -> Prop :=
| reachable_init now : reachable (simulator.__init__ now)
| reachable_step sim sim' : reachable sim -> step sim sim' -> reachable sim'.

End Run.

End fleet.

(** ** Sample inputs *)

Module samples.

(** Durations between three stops. *)
Definition durations : route_optimizer.matrix :=
  [ [0%float; 5%float; 2%float];
    [5%float; 0%float; 1%float];
    [2%float; 1%float; 0%float] ].

(** The agent of the tests as the dispatcher sends it to [pkg_2]. *)
Definition dispatched : DriverAgent :=
  driver_agent.assign_route [demo.home; demo.pickup_2; demo.dropoff_2]
    (Some [1]) (demo.new_agent "d1" demo.home).

(** The agent of the tests with the speed of its driver set to [0.0],
    sent to the pickup of [pkg_2]. *)
Definition zero_speed : DriverAgent :=
  {| driver_agent.driver :=
       {| driver.id := "d1"; driver.location := demo.home;
          driver.status := driver.EN_ROUTE; driver.assigned_packages := [];
          driver.route := None; driver.speed_mps := Some 0%float |};
     driver_agent._cursor := 0;
     driver_agent._route := Some [demo.pickup_2];
     driver_agent._packages := [] |}.

(** A simulator with the driver of the tests and no package. *)
Definition no_orders : EnvironmentSimulator :=
  simulator.add_driver (demo.new_agent "d1" demo.home) (simulator.__init__ 0).

(** The world of the tests after one tick of the dispatcher. *)
Definition after_dispatch : EnvironmentSimulator :=
  (dispatcher._tick demo.haversine_distance_m demo.osrm_route demo.world).1.

End samples.

(** * Properties *)

(** ** Package *)

Section PackageFacts.

Import package.

Lemma run_snoc cs c p : run (cs ++ [c]) p = perform c (run cs p).
Proof. unfold run. by rewrite foldl_app. Qed.

Lemma status_perform c p : status (perform c p) = target c.
Proof. by destruct c. Qed.

Lemma assigned_to_perform c p :
  assigned_to (perform c p) =
    match c with
    | MarkAssigned d => Some d
    | _ => assigned_to p
    end.
Proof. by destruct c. Qed.

End PackageFacts.

Section PackageClaims.

Import package.

Variables (pkg_id : string) (pickup dropoff : Location) (now : Z).

(** A freshly created package. *)
Let fresh : Package := package.new pkg_id pickup dropoff now.

(** C3, as the code has it: [mark_assigned] checks nothing.  From every
    status it returns the package with [assigned_to] set to the given
    driver and the status ASSIGNED, every other field as it was; there is
    no rejected call and no exception. *)
Theorem mark_assigned_unguarded (driver_id : string) (p : Package) :
  assigned_to (mark_assigned driver_id p) = Some driver_id
  /\ status (mark_assigned driver_id p) = ASSIGNED
  /\ id (mark_assigned driver_id p) = id p
  /\ package.pickup (mark_assigned driver_id p) = package.pickup p
  /\ package.dropoff (mark_assigned driver_id p) = package.dropoff p
  /\ created_at (mark_assigned driver_id p) = created_at p
  /\ priority (mark_assigned driver_id p) = priority p.
Proof. by destruct p. Qed.

(** C5, as the code has it: a call writes its own status whatever the
    status was, so after any call the status is that call's target and
    never PENDING again; made in the order of the life cycle the three
    calls walk PENDING, ASSIGNED, IN_TRANSIT, DELIVERED one stage at a
    time. *)
Theorem status_is_last_target (cs : list call) (c : call) (d : string) :
  status (run (cs ++ [c]) fresh) = target c
  /\ status (run (cs ++ [c]) fresh) <> PENDING
  /\ map (fun k => status (run (take k [MarkAssigned d; MarkInTransit; MarkDelivered]) fresh))
         [0; 1; 2; 3]
     = [PENDING; ASSIGNED; IN_TRANSIT; DELIVERED].
Proof.
  rewrite run_snoc, status_perform.
  split; [done|]. split; [by destruct c|done].
Qed.

(** C6, as the code has it: [assigned_to] is set exactly when
    [mark_assigned] was called; a set [assigned_to] implies a status among
    ASSIGNED, IN_TRANSIT, DELIVERED, and the status ASSIGNED implies a set
    [assigned_to].  IN_TRANSIT and DELIVERED are reached without it. *)
Theorem assigned_to_set_by_mark_assigned (cs : list call) :
  (is_Some (assigned_to (run cs fresh)) <-> exists d, MarkAssigned d ∈ cs)
  /\ (is_Some (assigned_to (run cs fresh)) ->
      is_assigned_status (status (run cs fresh)))
  /\ (status (run cs fresh) = ASSIGNED ->
      is_Some (assigned_to (run cs fresh))).
Proof.
  induction cs as [|c cs IH] using rev_ind.
  - cbn. split; [|split]; [|by intros [? ?]|done].
    split; [by intros [? ?]|]. intros [d Hd]. by apply elem_of_nil in Hd.
  - rewrite run_snoc. destruct IH as (IH1 & IH2 & IH3).
    rewrite assigned_to_perform, status_perform.
    assert (Hin : forall d, MarkAssigned d ∈ cs ++ [c]
                    <-> MarkAssigned d ∈ cs \/ MarkAssigned d = c).
    { intros d. rewrite elem_of_app, list_elem_of_singleton. tauto. }
    destruct c as [d'| |]; cbn.
    + split; [|split]; [|by left|by eauto].
      split; [|by eauto]. intros _. exists d'. apply Hin. by right.
    + split; [|split]; [|by intros; right; left|done].
      rewrite IH1. split; intros [d Hd]; exists d.
      * apply Hin. by left.
      * apply Hin in Hd as [?|?]; [done|discriminate].
    + split; [|split]; [|by intros; right; right|done].
      rewrite IH1. split; intros [d Hd]; exists d.
      * apply Hin. by left.
      * apply Hin in Hd as [?|?]; [done|discriminate].
Qed.

End PackageClaims.

(** C3 fails as stated: a second [mark_assigned], on a package that is
    already ASSIGNED, returns (it raises nothing) and replaces
    [assigned_to]. *)
Lemma mark_assigned_twice_overwrites :
  let p := package.mark_assigned "d1" demo.package_1 in
  package.status p <> package.PENDING
  /\ package.assigned_to p = Some "d1"
  /\ package.assigned_to (package.mark_assigned "d2" p) = Some "d2"
  /\ package.assigned_to (package.mark_assigned "d2" p) <> package.assigned_to p.
Proof. cbn. repeat split; discriminate. Qed.

(** C5 fails as stated: [mark_delivered] on a fresh package skips two
    stages, and [mark_assigned] on a delivered package goes back. *)
Lemma status_skips_and_goes_back :
  let p := demo.package_1 in
  let delivered := package.mark_delivered p in
  package.status p = package.PENDING
  /\ package.status delivered = package.DELIVERED
  /\ ~ package.forward_step (package.status p) (package.status delivered)
  /\ package.status (package.mark_assigned "d1" delivered) = package.ASSIGNED
  /\ ~ package.forward_step (package.status delivered)
        (package.status (package.mark_assigned "d1" delivered)).
Proof.
  cbn. unfold package.forward_step. cbn.
  repeat split; try done; intros [?|?]; discriminate.
Qed.

(** C6 fails as stated: [mark_in_transit] on a fresh package gives the
    status IN_TRANSIT with [assigned_to] still [None]. *)
Lemma in_transit_without_assignee :
  let p := package.run [package.MarkInTransit] demo.package_1 in
  package.is_assigned_status (package.status p)
  /\ package.assigned_to p = None.
Proof. cbn. split; [right; by left|done]. Qed.

(** ** Floats *)

Section FloatFacts.

Lemma SFcompare_swap x y :
  SFcompare y x = option_map CompOpp (SFcompare x y).
Proof.
  destruct x as [sx|sx| |sx mx ex], y as [sy|sy| |sy my ey]; cbn;
    try done; try (by destruct sx); try (by destruct sy);
    try (by destruct sx, sy).
  destruct sx, sy; cbn; try done; f_equal;
    rewrite (Z.compare_antisym ey ex); destruct (ey ?= ex)%Z; cbn; try done.
  - f_equal. exact (eq_sym (Pos.compare_cont_antisym mx my Eq)).
  - exact (eq_sym (Pos.compare_cont_antisym mx my Eq)).
Qed.

(** [<] on floats is asymmetric, NaN included. *)
Lemma float_ltb_asym (x y : float) :
  PrimFloat.ltb x y = true -> PrimFloat.ltb y x = false.
Proof.
  rewrite !FloatAxioms.ltb_spec. unfold SFltb. rewrite (SFcompare_swap (Prim2SF x)).
  by destruct (SFcompare (Prim2SF x) (Prim2SF y)) as [[]|].
Qed.

Lemma Prim2SF_one : Prim2SF 1%float = S754_finite false 4503599627370496 (-52).
Proof. vm_compute. reflexivity. Qed.

Lemma Prim2SF_zero : Prim2SF 0%float = S754_zero false.
Proof. vm_compute. reflexivity. Qed.

(** A float that is not below 1.0 is not a zero. *)
Lemma float_not_below_one_nonzero (x : float) :
  PrimFloat.ltb x 1%float = false -> PrimFloat.eqb x 0%float = false.
Proof.
  rewrite FloatAxioms.ltb_spec, FloatAxioms.eqb_spec. unfold SFltb, SFeqb.
  rewrite Prim2SF_one, Prim2SF_zero.
  destruct (Prim2SF x) as [s|s| |s m e]; unfold SFcompare;
    try destruct s; try discriminate; reflexivity.
Qed.

Lemma float_div_defined (x y : float) :
  PrimFloat.ltb y 1%float = false -> float_div x y = Ok (PrimFloat.div x y).
Proof.
  intros H. unfold float_div. by rewrite (float_not_below_one_nonzero _ H).
Qed.

End FloatFacts.

(** ** Driver *)

(** X5: The model class alone keeps the invariant in both directions: its
    [route] is absent exactly when it is IDLE, and holds waypoints exactly
    when it is EN_ROUTE.  The agent does not use these methods; it keeps
    its own [_route] and cursor. *)
Lemma driver_model_invariant (d : Driver) :
  driver.reachable d ->
  (driver.status d = driver.IDLE <-> driver.route d = None)
  /\ (driver.status d = driver.EN_ROUTE
      <-> exists w ws, driver.route d = Some (w :: ws)).
Proof.
  induction 1 as [| route' packages self _ _ Hne | self _ _]; cbn.
  - split; [done|]. split; [done|]. by intros (? & ? & ?).
  - split; [done|]. split; [|done]. intros _.
    destruct route' as [|w ws]; [done|]. eauto.
  - split; [done|]. split; [done|]. by intros (? & ? & ?).
Qed.

(** ** DriverAgent *)

Section DriverAgentFacts.

Import driver_agent.

Variable settings : Settings.
Variable haversine_distance_m : distance_fn.

Local Abbreviation tick := (driver_agent.tick settings haversine_distance_m).
Local Abbreviation ticks := (driver_agent.ticks settings haversine_distance_m).
Local Abbreviation step_of := (driver_agent.step_of settings).
Local Abbreviation reachable :=
  (driver_agent.reachable settings haversine_distance_m).

#[local] Arguments driver_agent.step_of : simpl never.

(** [tick] has a waypoint to move to exactly when one remains. *)
Lemma has_waypoint_lookup (a : DriverAgent) :
  route_falsy (_route a) || cursor_past_end a = false <->
  exists target, route_list a !! _cursor a = Some target.
Proof.
  unfold cursor_past_end, route_list. split.
  - intros [_ H]%orb_false_elim. apply bool_decide_eq_false in H.
    apply lookup_lt_is_Some. lia.
  - intros [target H]. apply lookup_lt_Some in H as Hlt.
    destruct (_route a) as [[|w ws]|]; cbn in *; try lia.
    apply bool_decide_eq_false. lia.
Qed.

(** The three ways [tick] returns. *)
Lemma tick_Ok (dt : float) (a a' : DriverAgent) :
  tick dt a = Ok a' ->
  (route_falsy (_route a) || cursor_past_end a = true /\ a' = tick_idle a)
  \/ (exists target,
        route_list a !! _cursor a = Some target
        /\ (a' = arrive target a \/ exists f, a' = interpolate target f a)).
Proof.
  unfold driver_agent.tick.
  destruct (route_falsy (_route a) || cursor_past_end a) eqn:Hno.
  { intros [= <-]. by left. }
  apply has_waypoint_lookup in Hno as [target Ht].
  unfold getitem. rewrite Ht. cbn.
  destruct (haversine_distance_m _ target) as [dist|]; cbn; [|done].
  destruct (_ || _).
  - intros [= <-]. right. exists target. auto.
  - destruct (float_div _ dist) as [f|]; cbn; [|done].
    intros [= <-]. right. exists target. eauto.
Qed.

(** [tick] moves the driver and the cursor, and nothing else. *)
Lemma tick_frame (dt : float) (a a' : DriverAgent) :
  tick dt a = Ok a' ->
  _route a' = _route a /\ _packages a' = _packages a
  /\ driver.speed_mps (driver a') = driver.speed_mps (driver a)
  /\ driver.id (driver a') = driver.id (driver a).
Proof.
  intros [[_ ->]|(target & _ & [->|[f ->]])]%tick_Ok; try done.
  unfold tick_idle. by case_decide.
Qed.

Lemma step_of_tick (dt dt' : float) (a a' : DriverAgent) :
  tick dt a = Ok a' -> step_of dt' a' = step_of dt' a.
Proof.
  intros (_ & _ & H & _)%tick_frame. unfold driver_agent.step_of.
  by rewrite H.
Qed.

(** An agent keeps the speed its constructor took from the settings. *)
Lemma reachable_speed allowed (a : DriverAgent) :
  reachable allowed a ->
  driver.speed_mps (driver a) = Some (DRIVER_SPEED_MPS settings).
Proof.
  induction 1 as [| dt a a' _ IH Ht | |]; try done.
  apply tick_frame in Ht as (_ & _ & -> & _). done.
Qed.

Lemma speed_or_same (s : float) : speed_or (Some s) s = s.
Proof. unfold speed_or. by destruct (float_truthy s). Qed.

(** [speed or default]: the speed where it is a number other than zero. *)
Lemma speed_or_cases (speed : option float) (default : float) :
  (forall s, speed = Some s -> PrimFloat.eqb s 0%float = false ->
     speed_or speed default = s)
  /\ (forall s, speed = Some s -> PrimFloat.eqb s 0%float = true ->
       speed_or speed default = default)
  /\ (speed = None -> speed_or speed default = default).
Proof.
  unfold speed_or, float_truthy. split; [|split].
  - by intros s -> ->.
  - by intros s -> ->.
  - by intros ->.
Qed.

Lemma reachable_consistent (a : DriverAgent) :
  reachable (fun route => route <> []) a -> consistent a.
Proof.
  induction 1 as [| dt a a' _ IH Ht | route pk a _ _ Hne | a _ _]; try done.
  - apply tick_Ok in Ht as [[Hno ->]|(target & Hl & H)].
    + unfold driver_agent.consistent, tick_idle in *. case_decide as Hs; [|done].
      unfold cursor_past_end, route_list in Hno. cbn.
      destruct (_route a) as [route|]; cbn in *.
      * destruct IH as (Hne & Hle & _). split; [done|]. split; [done|].
        right. split; [done|]. destruct route; [done|]. cbn in Hno.
        apply bool_decide_eq_true in Hno. cbn in *. lia.
      * by destruct IH.
    + unfold driver_agent.consistent, route_list in *. apply lookup_lt_Some in Hl.
      destruct H as [->|[f ->]]; cbn; destruct (_route a) as [route|];
        cbn in *; try lia.
      * destruct IH as (Hne & Hle & [Hs|[_ Hc]]); [|lia].
        split; [done|]. split; [lia|]. by left.
      * destruct IH as (Hne & Hle & [Hs|[_ Hc]]); [|lia].
        split; [done|]. split; [lia|]. by left.
  - unfold driver_agent.consistent. cbn. split; [done|]. split; [lia|]. by left.
Qed.

(** Ticks along a route within the travel budget: each one arrives. *)
Lemma ticks_arrive (dt : float) (rest : list Location) :
  forall (done_ : list Location) (a : DriverAgent),
    _route a = Some (done_ ++ rest) ->
    _cursor a = length done_ ->
    budget_suffices haversine_distance_m (step_of dt a)
      (driver.location (driver a)) rest ->
    exists a',
      ticks dt (length rest) a = Ok a'
      /\ last (driver.location (driver a) :: rest)
         = Some (driver.location (driver a'))
      /\ _cursor a' = length (done_ ++ rest)
      /\ _route a' = _route a
      /\ driver.status (driver a') = driver.status (driver a)
      /\ step_of dt a' = step_of dt a.
Proof.
  induction rest as [|w ws IH]; intros done_ a Hr Hc Hb.
  - exists a. rewrite app_nil_r. by cbn.
  - destruct Hb as [(dist & Hd & Hle) Hb].
    assert (Ht : tick dt a = Ok (arrive w a)).
    { assert (Hl : route_list a = done_ ++ w :: ws).
      { unfold route_list. by rewrite Hr. }
      unfold driver_agent.tick, cursor_past_end, getitem.
      rewrite Hl, Hr, Hc.
      rewrite lookup_app_r, Nat.sub_diag by lia. cbn [lookup list_lookup].
      replace (route_falsy _ || _) with false; cycle 1.
      { symmetry. apply orb_false_intro.
        - by destruct done_.
        - apply bool_decide_eq_false. rewrite length_app. cbn. lia. }
      cbn. rewrite Hd. cbn. by rewrite Hle. }
    destruct (IH (done_ ++ [w]) (arrive w a))
      as (a' & Hts & Hloc & Hcur & Hrt & Hst & Hstep).
    + cbn. by rewrite <- app_assoc.
    + cbn. rewrite Hc, length_app. cbn. lia.
    + by rewrite (step_of_tick _ _ _ _ Ht).
    + exists a'. cbn [driver_agent.ticks length]. rewrite Ht. cbn.
      rewrite Hts. rewrite <- app_assoc in Hcur.
      split; [done|]. split; [done|]. split; [done|]. split; [done|].
      split; [done|]. by rewrite Hstep, (step_of_tick _ _ _ _ Ht).
Qed.

(** With no waypoint left, [tick] only resets the status. *)
Lemma tick_exhausted (dt : float) (a : DriverAgent) :
  length (route_list a) <= _cursor a ->
  tick dt a = Ok (tick_idle a).
Proof.
  intros Hle. unfold driver_agent.tick, cursor_past_end.
  rewrite (bool_decide_eq_true_2 _ Hle). by rewrite orb_true_r.
Qed.

(** C10: [assign_route] accepts the empty list.  The agent is then
    EN_ROUTE with an empty route and the cursor at 0, and the next [tick]
    returns with the status IDLE and the location untouched. *)
Theorem assign_empty_route (a : DriverAgent)
    (packages : option (list package_ref)) (dt : float) :
  let a1 := assign_route [] packages a in
  driver.status (driver a1) = driver.EN_ROUTE
  /\ _route a1 = Some []
  /\ _cursor a1 = 0
  /\ exists a2,
       tick dt a1 = Ok a2
       /\ driver.status (driver a2) = driver.IDLE
       /\ driver.location (driver a2) = driver.location (driver a).
Proof.
  cbn. repeat split. eexists. split; [reflexivity|]. by cbn.
Qed.

(** C7, as the code has it: one [tick] of an agent with a current
    waypoint [target] at the distance [dist].  The step is
    [(speed_mps or DRIVER_SPEED_MPS) * dt]: the speed is the [speed_mps] of
    the driver where that is a number other than zero, and the setting
    where it is [None] or a zero; for an agent built by the constructor and
    driven by its operations the speed is its [speed_mps].  When
    [step >= dist] or [dist < 1.0] the location becomes [target] and the
    cursor advances by one, otherwise the location is interpolated in
    latitude and longitude by [f = step / dist] and the cursor stays.
    Status and route are kept in both cases. *)
Theorem tick_motion (a : DriverAgent) (dt : float) (target : Location)
    (dist : float) :
  route_list a !! _cursor a = Some target ->
  haversine_distance_m (driver.location (driver a)) target = Ok dist ->
  exists speed a',
    speed = speed_or (driver.speed_mps (driver a)) (DRIVER_SPEED_MPS settings)
    /\ (forall s, driver.speed_mps (driver a) = Some s ->
          PrimFloat.eqb s 0%float = false -> speed = s)
    /\ (forall s, driver.speed_mps (driver a) = Some s ->
          PrimFloat.eqb s 0%float = true -> speed = DRIVER_SPEED_MPS settings)
    /\ (driver.speed_mps (driver a) = None ->
        speed = DRIVER_SPEED_MPS settings)
    /\ (reachable (fun _ => True) a ->
        driver.speed_mps (driver a) = Some speed)
    /\ tick dt a = Ok a'
    /\ driver.status (driver a') = driver.status (driver a)
    /\ _route a' = _route a
    /\ let step := (speed * dt)%float in
       let here := driver.location (driver a) in
       if PrimFloat.leb dist step || PrimFloat.ltb dist 1%float then
         driver.location (driver a') = target
         /\ _cursor a' = S (_cursor a)
       else
         let f := (step / dist)%float in
         driver.location (driver a')
         = location.new
             (location.lat here
              + (location.lat target - location.lat here) * f)%float
             (location.lon here
              + (location.lon target - location.lon here) * f)%float
         /\ _cursor a' = _cursor a.
Proof.
  intros Hl Hd.
  exists (speed_or (driver.speed_mps (driver a)) (DRIVER_SPEED_MPS settings)).
  destruct (speed_or_cases (driver.speed_mps (driver a))
              (DRIVER_SPEED_MPS settings)) as (Hnonzero & Hzero & Hnone).
  assert (Hbuilt : reachable (fun _ => True) a ->
            driver.speed_mps (driver a)
            = Some (speed_or (driver.speed_mps (driver a))
                      (DRIVER_SPEED_MPS settings))).
  { intros Hreach. rewrite (reachable_speed _ _ Hreach).
    by rewrite speed_or_same. }
  assert (Hno : route_falsy (_route a) || cursor_past_end a = false).
  { apply has_waypoint_lookup. eauto. }
  unfold driver_agent.tick, getitem. rewrite Hno, Hl. cbn. rewrite Hd. cbn.
  unfold driver_agent.step_of.
  destruct (PrimFloat.leb dist _ || PrimFloat.ltb dist 1) eqn:Harr.
  - eexists. do 5 (split; [done|]). split; [reflexivity|]. by cbn.
  - apply orb_false_elim in Harr as [_ Hlt].
    rewrite (float_div_defined _ _ Hlt). cbn.
    eexists. do 5 (split; [done|]). split; [reflexivity|]. by cbn.
Qed.

(** C2, as the code has it: along a route of [L >= 1] waypoints with a
    travel budget that reaches the waypoint at every tick, [L] ticks leave
    the driver at the last waypoint with the cursor at [L] and the status
    still EN_ROUTE; the tick after that sets the status to IDLE and leaves
    the location at the last waypoint. *)
Theorem route_completion (a : DriverAgent) (route : list Location)
    (packages : option (list package_ref)) (dt : float) :
  route <> [] ->
  budget_suffices haversine_distance_m (step_of dt a)
    (driver.location (driver a)) route ->
  exists a' a'',
    ticks dt (length route) (assign_route route packages a) = Ok a'
    /\ last route = Some (driver.location (driver a'))
    /\ _cursor a' = length route
    /\ driver.status (driver a') = driver.EN_ROUTE
    /\ tick dt a' = Ok a''
    /\ driver.status (driver a'') = driver.IDLE
    /\ driver.location (driver a'') = driver.location (driver a').
Proof.
  intros Hne Hb.
  destruct (ticks_arrive dt route [] (assign_route route packages a))
    as (a' & Hts & Hloc & Hcur & Hrt & Hst & _); [done|done|done|].
  exists a', (tick_idle a'). cbn in Hcur, Hst, Hrt, Hloc.
  split; [done|]. split; [by destruct route|]. split; [done|].
  split; [done|]. split.
  { apply tick_exhausted. unfold route_list. rewrite Hrt. cbn. lia. }
  unfold tick_idle. rewrite Hst. by case_decide.
Qed.

(** C4, as the code has it: for an agent built by the constructor and
    driven by [assign_route] with non-empty waypoints, [clear_route] and
    [tick], a remaining waypoint implies EN_ROUTE and an empty or absent
    route implies IDLE; IDLE implies that no waypoint remains and EN_ROUTE
    that the route is not empty.  The status is never DELIVERING and the
    cursor never passes the end of the route. *)
Theorem state_machine_invariant (a : DriverAgent) :
  reachable (fun route => route <> []) a ->
  (_cursor a < length (route_list a) ->
     driver.status (driver a) = driver.EN_ROUTE)
  /\ (route_falsy (_route a) = true ->
      driver.status (driver a) = driver.IDLE)
  /\ (driver.status (driver a) = driver.IDLE ->
      length (route_list a) <= _cursor a)
  /\ (driver.status (driver a) = driver.EN_ROUTE ->
      route_falsy (_route a) = false)
  /\ driver.status (driver a) <> driver.DELIVERING
  /\ _cursor a <= length (route_list a).
Proof.
  intros H%reachable_consistent. unfold driver_agent.consistent, route_list in *.
  destruct (_route a) as [[|w ws]|]; cbn in *.
  - by destruct H.
  - destruct H as (_ & Hle & [Hs|[Hs Hc]]); rewrite Hs;
      repeat split; try done; try lia.
  - destruct H as [-> ->]. repeat split; try done; lia.
Qed.

End DriverAgentFacts.

(** ** DriverAgent on the demo world *)

Section DriverAgentDemo.

Import driver_agent.

Local Abbreviation tick :=
  (driver_agent.tick default_settings demo.haversine_distance_m).
Local Abbreviation ticks :=
  (driver_agent.ticks default_settings demo.haversine_distance_m).
Local Abbreviation reachable :=
  (driver_agent.reachable default_settings demo.haversine_distance_m).

(** The agent of the tests, sent to the pickup of [pkg_2]. *)
Let sent : DriverAgent :=
  assign_route [demo.pickup_2] None (demo.new_agent "d1" demo.home).

(** The same agent as the dispatcher sends it. *)
Let dispatched : DriverAgent :=
  assign_route [demo.home; demo.pickup_2; demo.dropoff_2] (Some [1])
    (demo.new_agent "d1" demo.home).

(** The interpolation of one second of travel, 10 m of 843 m, gives the
    coordinates Python computes for the same step. *)
Example tick_interpolates :
  tick 1%float (arrive demo.home dispatched)
  = Ok (set_driver
          (driver.set_location
             (location.new 0x1.311e5f2634020p+4%float
                           0x1.237ae9651905fp+6%float)
             (driver (arrive demo.home dispatched)))
          (arrive demo.home dispatched)).
Proof. vm_compute. reflexivity. Qed.

(** [tick_motion] at the first tick of the dispatched agent: the waypoint
    is the driver's own position, [dist = 0.0 < 1.0], so the agent arrives. *)
Lemma tick_motion_witness :
  exists a',
    tick 1%float dispatched = Ok a'
    /\ driver.location (driver a') = demo.home
    /\ _cursor a' = 1.
Proof.
  destruct (tick_motion default_settings demo.haversine_distance_m
              dispatched 1%float demo.home 0%float)
    as (speed & a' & Hs & _ & _ & _ & _ & Ht & _ & _ & H).
  - reflexivity.
  - vm_compute. reflexivity.
  - exists a'. split; [exact Ht|].
    rewrite Hs in H. vm_compute in H. exact H.
Defined.

(** [route_completion] on a route of one waypoint, 843 m away, with a
    tick of 100 s at 10 m/s. *)
Lemma route_completion_witness :
  exists a' a'',
    ticks 100%float 1 sent = Ok a'
    /\ driver.location (driver a') = demo.pickup_2
    /\ driver.status (driver a') = driver.EN_ROUTE
    /\ tick 100%float a' = Ok a''
    /\ driver.status (driver a'') = driver.IDLE.
Proof.
  destruct (route_completion default_settings demo.haversine_distance_m
              (demo.new_agent "d1" demo.home) [demo.pickup_2] None 100%float)
    as (a' & a'' & Hts & Hlast & _ & Hst & Ht & Hidle & _).
  - discriminate.
  - split; [|exact I]. eexists. split; vm_compute; reflexivity.
  - exists a', a''. injection Hlast as <-. auto.
Defined.

(** [state_machine_invariant] on the agent after its last arrival. *)
Lemma state_machine_invariant_witness :
  driver.status (driver (arrive demo.pickup_2 sent)) = driver.EN_ROUTE
  /\ _cursor (arrive demo.pickup_2 sent)
     <= length (route_list (arrive demo.pickup_2 sent)).
Proof.
  destruct (state_machine_invariant default_settings
              demo.haversine_distance_m (arrive demo.pickup_2 sent))
    as (_ & _ & _ & _ & _ & Hle).
  - apply (reachable_tick _ _ _ 100%float sent).
    + apply reachable_assign_route; [apply reachable_init|discriminate].
    + vm_compute. reflexivity.
  - split; [reflexivity|exact Hle].
Defined.

(** C7 fails as stated: with [speed_mps = 0.0] the step [speed_mps * dt]
    of the claim is zero, short of the 843 m to the waypoint, which is not
    below 1.0 either, so the claim has the driver interpolated with the
    cursor unchanged; the code travels at [DRIVER_SPEED_MPS], 1000 m in
    100 s, and the driver arrives with the cursor advanced. *)
Lemma zero_speed_uses_setting :
  exists dist a',
    driver.speed_mps (driver samples.zero_speed) = Some 0%float
    /\ route_list samples.zero_speed !! _cursor samples.zero_speed
       = Some demo.pickup_2
    /\ demo.haversine_distance_m
         (driver.location (driver samples.zero_speed)) demo.pickup_2
       = Ok dist
    /\ PrimFloat.leb dist (0 * 100)%float || PrimFloat.ltb dist 1%float
       = false
    /\ tick 100%float samples.zero_speed = Ok a'
    /\ driver.location (driver a') = demo.pickup_2
    /\ _cursor a' = S (_cursor samples.zero_speed)
    /\ _cursor a' <> _cursor samples.zero_speed.
Proof.
  exists 0x1.a5912403a41dep+9%float, (arrive demo.pickup_2 samples.zero_speed).
  split; [reflexivity|]. split; [reflexivity|].
  split; [vm_compute; reflexivity|]. split; [vm_compute; reflexivity|].
  split; [vm_compute; reflexivity|]. split; [reflexivity|].
  split; [reflexivity|]. cbn. lia.
Qed.

(** C2 fails as stated: the budget reaches the only waypoint, and after
    the one tick of the route the driver is there with the status
    EN_ROUTE, not IDLE. *)
Lemma en_route_after_last_arrival :
  [demo.pickup_2] <> []
  /\ budget_suffices demo.haversine_distance_m
       (driver_agent.step_of default_settings 100%float
          (demo.new_agent "d1" demo.home))
       demo.home [demo.pickup_2]
  /\ exists a',
       ticks 100%float (length [demo.pickup_2]) sent = Ok a'
       /\ driver.location (driver a') = demo.pickup_2
       /\ driver.status (driver a') = driver.EN_ROUTE
       /\ driver.status (driver a') <> driver.IDLE.
Proof.
  split; [discriminate|]. split.
  - split; [|exact I]. eexists. split; vm_compute; reflexivity.
  - eexists. split; [vm_compute; reflexivity|]. cbn. by repeat split.
Qed.

(** C4 fails as stated: after the last arrival the reachable agent is
    EN_ROUTE with no waypoint left, and one tick later it is IDLE with its
    route still in place. *)
Lemma invariant_fails_after_last_arrival :
  exists a1 a2,
    reachable (fun route => route <> []) a1
    /\ tick 100%float a1 = Ok a2
    /\ driver.status (driver a1) = driver.EN_ROUTE
    /\ ~ _cursor a1 < length (route_list a1)
    /\ driver.status (driver a2) = driver.IDLE
    /\ route_falsy (_route a2) = false
    /\ ~ spec_invariant a1
    /\ ~ spec_invariant a2.
Proof.
  exists (arrive demo.pickup_2 sent), (tick_idle (arrive demo.pickup_2 sent)).
  split.
  { apply (reachable_tick _ _ _ 100%float sent).
    - apply reachable_assign_route; [apply reachable_init|discriminate].
    - vm_compute. reflexivity. }
  split; [vm_compute; reflexivity|].
  unfold spec_invariant. cbn.
  repeat split; try done; try lia.
  - intros [_ [H _]]. specialize (H eq_refl). lia.
  - intros [[H _] _]. specialize (H eq_refl). discriminate.
Qed.

End DriverAgentDemo.

(** ** EnvironmentSimulator *)

Section SimulatorFacts.

Variable settings : Settings.
Variable haversine_distance_m : distance_fn.

Local Abbreviation agent_tick :=
  (driver_agent.tick settings haversine_distance_m).
Local Abbreviation try_tick := (simulator.try_tick settings haversine_distance_m).
Local Abbreviation sim_tick := (simulator._tick settings haversine_distance_m).

Lemma try_tick_raises (dt : float) (d : DriverAgent) :
  raises (agent_tick dt d) -> try_tick dt d = d.
Proof. unfold simulator.try_tick. by destruct (agent_tick dt d). Qed.

Lemma try_tick_returns (dt : float) (d d' : DriverAgent) :
  agent_tick dt d = Ok d' -> try_tick dt d = d'.
Proof. unfold simulator.try_tick. by intros ->. Qed.

(** C8: when the tick of one driver raises, [_tick] still returns; the
    drivers before and after the faulty one are advanced by their own
    ticks, to the states they reach in the tick of the simulator without
    the faulty driver, and the faulty driver stays as it was. *)
Theorem tick_isolation (sim : EnvironmentSimulator)
    (before after : list DriverAgent) (faulty : DriverAgent) :
  simulator.drivers sim = before ++ faulty :: after ->
  raises (agent_tick (simulator._tick_seconds sim) faulty) ->
  let dt := simulator._tick_seconds sim in
  let without := simulator.set_drivers (before ++ after) sim in
  simulator.drivers (sim_tick sim)
  = take (length before) (simulator.drivers (sim_tick without))
    ++ faulty :: drop (length before) (simulator.drivers (sim_tick without))
  /\ simulator.drivers (sim_tick without)
     = map (try_tick dt) before ++ map (try_tick dt) after
  /\ forall d d', d ∈ before ++ after -> agent_tick dt d = Ok d' ->
       try_tick dt d = d'.
Proof.
  intros Hds Hraise dt without. subst dt without.
  unfold simulator._tick. cbn. rewrite Hds.
  rewrite !map_app. cbn. rewrite (try_tick_raises _ _ Hraise).
  rewrite take_app_length', drop_app_length' by by rewrite length_map.
  repeat split. intros d d' _. apply try_tick_returns.
Qed.

End SimulatorFacts.

(** [tick_isolation] on three drivers, the second sent to a waypoint with
    an infinite latitude, where the distance raises [ValueError]: the
    first is advanced, to the pickup it was sent to, and so is the third. *)
Lemma tick_isolation_witness :
  let good := driver_agent.assign_route [demo.pickup_2] None
                (demo.new_agent "d1" demo.home) in
  let faulty := driver_agent.assign_route [demo.nowhere] None
                  (demo.new_agent "d2" demo.home) in
  let sim := simulator.add_driver good
               (simulator.add_driver faulty
                  (simulator.add_driver good (simulator.__init__ 0))) in
  raises (driver_agent.tick default_settings demo.haversine_distance_m
            1%float faulty)
  /\ simulator.drivers
       (simulator._tick default_settings demo.haversine_distance_m sim)
     = [driver_agent.interpolate demo.pickup_2 0x1.84a52fe4b4fc2p-7%float good;
        faulty;
        driver_agent.interpolate demo.pickup_2 0x1.84a52fe4b4fc2p-7%float good].
Proof.
  intros good faulty sim.
  assert (Hraise : raises (driver_agent.tick default_settings
                             demo.haversine_distance_m 1%float faulty)).
  { vm_compute. exact I. }
  split; [exact Hraise|].
  destruct (tick_isolation default_settings demo.haversine_distance_m
              sim [good] [good] faulty eq_refl Hraise) as (-> & -> & _).
  vm_compute. reflexivity.
Defined.

(** ** RoutingEngine *)

Section RoutingFacts.

Import routing_engine.

Variable haversine_distance_m : distance_fn.
Variable osrm_route : Location -> Location -> result RouteInfo.
Variable osrm_table : list Location -> result (option matrix).

Local Abbreviation get_route :=
  (routing_engine.get_route haversine_distance_m osrm_route).
Local Abbreviation fallback_matrix :=
  (routing_engine.fallback_matrix haversine_distance_m).
Local Abbreviation get_duration_matrix :=
  (routing_engine.get_duration_matrix haversine_distance_m osrm_table).
Local Abbreviation entry := (routing_engine.fallback_entry haversine_distance_m).

(** [get_route] returns whenever the fallback distance is defined. *)
Lemma get_route_returns (origin destination : Location) :
  returns (haversine_distance_m origin destination) ->
  returns (get_route origin destination).
Proof.
  unfold routing_engine.get_route.
  destruct (osrm_route origin destination); [done|].
  by destruct (haversine_distance_m origin destination).
Qed.

Lemma square_lookup n (mat : matrix) i row :
  square n mat -> mat !! i = Some row -> i < n /\ length row = n.
Proof.
  intros [Hlen Hrows] Hi. split.
  - rewrite <- Hlen. by eapply lookup_lt_Some.
  - by eapply (Forall_lookup_1 _ _ _ _ Hrows).
Qed.

(** An assignment [mat[i][j] = v] inside an [n] by [n] matrix. *)
Lemma setitem2_square n (mat : matrix) i j v :
  square n mat -> i < n -> j < n ->
  exists mat',
    setitem2 mat i j v = Ok mat'
    /\ square n mat'
    /\ forall i' j',
         get2 mat' i' j'
         = if decide (i' = i /\ j' = j) then Some v else get2 mat i' j'.
Proof.
  intros Hsq Hi Hj. pose proof Hsq as [Hlen Hrows].
  destruct (lookup_lt_is_Some_2 mat i) as [row Hrow]; [lia|].
  destruct (square_lookup _ _ _ _ Hsq Hrow) as [_ Hrl].
  exists (<[i := <[j := v]> row]> mat).
  unfold setitem2, getitem, setitem. rewrite Hrow. cbn.
  rewrite decide_True by lia. cbn. rewrite decide_True by lia.
  split; [done|]. split.
  - split; [by rewrite length_insert|].
    apply Forall_insert; [done|]. by rewrite length_insert.
  - intros i' j'. unfold get2. destruct (decide (i' = i)) as [->|Hne].
    + rewrite list_lookup_insert_eq by lia. rewrite Hrow. cbn.
      destruct (decide (j' = j)) as [->|Hnej].
      * rewrite list_lookup_insert_eq by lia. by rewrite decide_True.
      * rewrite list_lookup_insert_ne by done.
        rewrite decide_False; [done|]. by intros [_ ?].
    + rewrite list_lookup_insert_ne by done.
      rewrite decide_False; [done|]. by intros [? _].
Qed.

Section Fallback.

Variable points : list Location.

(** The distances the fallback asks for are defined. *)
Hypothesis distances_defined :
  forall i j p q, i <> j -> points !! i = Some p -> points !! j = Some q ->
    returns (haversine_distance_m p q).

Let n := length points.

(** The body of the inner loop at [i], [j]. *)
Let cell (i j : nat) (mat : matrix) : result matrix :=
  if decide (i = j) then setitem2 mat i j 0%float
  else
    p_i ← getitem points i;
    p_j ← getitem points j;
    d ← haversine_distance_m p_i p_j;
    setitem2 mat i j (PrimFloat.div d 11.11%float).

Lemma cell_writes_entry i j (mat : matrix) :
  i < n -> j < n -> cell i j mat = setitem2 mat i j (entry points i j).
Proof using distances_defined.
  intros Hi Hj. unfold cell, routing_engine.fallback_entry.
  destruct (decide (i = j)) as [->|Hne]; [done|].
  destruct (lookup_lt_is_Some_2 points i) as [p Hp]; [done|].
  destruct (lookup_lt_is_Some_2 points j) as [q Hq]; [done|].
  unfold getitem, pair_distance. rewrite Hp, Hq. cbn.
  pose proof (distances_defined i j p q Hne Hp Hq) as Hd.
  by destruct (haversine_distance_m p q).
Qed.

(** The inner loop over the columns [k, k + m) of row [i]. *)
Lemma inner_loop i m :
  forall k (mat : matrix),
    i < n -> k + m <= n -> square n mat ->
    exists mat',
      for_each (seq k m) (cell i) mat = Ok mat'
      /\ square n mat'
      /\ forall i' j',
           get2 mat' i' j'
           = if decide (i' = i /\ k <= j' < k + m)
             then Some (entry points i j') else get2 mat i' j'.
Proof using distances_defined.
  induction m as [|m IH]; intros k mat Hi Hk Hsq.
  - exists mat. split; [done|]. split; [done|]. intros i' j'.
    rewrite decide_False; [done|]. lia.
  - cbn [seq for_each]. rewrite cell_writes_entry by lia.
    destruct (setitem2_square n mat i k (entry points i k) Hsq)
      as (mat1 & -> & Hsq1 & Hget1); [lia|lia|]. cbn.
    destruct (IH (S k) mat1) as (mat' & -> & Hsq' & Hget'); [lia|lia|done|].
    exists mat'. split; [done|]. split; [done|]. intros i' j'.
    rewrite Hget', Hget1.
    repeat case_decide; destruct_and?; subst; try done; exfalso; lia.
Qed.

(** The outer loop over the rows [k, k + m). *)
Lemma outer_loop m :
  forall k (mat : matrix),
    k + m <= n -> square n mat ->
    exists mat',
      for_each (seq k m)
        (fun i mat => for_each (seq 0 n) (cell i) mat) mat = Ok mat'
      /\ square n mat'
      /\ forall i' j',
           get2 mat' i' j'
           = if decide (k <= i' < k + m /\ j' < n)
             then Some (entry points i' j') else get2 mat i' j'.
Proof using distances_defined.
  induction m as [|m IH]; intros k mat Hk Hsq.
  - exists mat. split; [done|]. split; [done|]. intros i' j'.
    rewrite decide_False; [done|]. lia.
  - cbn [seq for_each].
    destruct (inner_loop k n 0 mat) as (mat1 & -> & Hsq1 & Hget1);
      [lia|lia|done|]. cbn.
    destruct (IH (S k) mat1) as (mat' & -> & Hsq' & Hget'); [lia|done|].
    exists mat'. split; [done|]. split; [done|]. intros i' j'.
    rewrite Hget', Hget1.
    repeat case_decide; destruct_and?; subst; try done; exfalso; lia.
Qed.

Lemma fallback_matrix_entries :
  exists mat,
    fallback_matrix points = Ok mat
    /\ square n mat
    /\ forall i j, i < n -> j < n ->
         get2 mat i j = Some (entry points i j).
Proof using distances_defined.
  assert (Hsq : square n (replicate n (replicate n 0%float))).
  { split; [by rewrite length_replicate|].
    apply Forall_replicate. by rewrite length_replicate. }
  destruct (outer_loop n 0 _ (Nat.le_refl _) Hsq) as (mat & Hrun & Hsq' & Hget).
  exists mat. split; [exact Hrun|]. split; [done|]. intros i j Hi Hj.
  rewrite Hget. rewrite decide_True; [done|lia].
Qed.

End Fallback.

(** C9: [get_duration_matrix] returns [[0.0]] for fewer than two points.
    For [n >= 2] points, when the request to the route service fails and
    the distances between the points are defined, it returns [n] rows of
    [n] entries with zeros on the diagonal and
    [haversine(p_i, p_j) / 11.11] at [i], [j] off the diagonal; for two
    points at a distance [d] in both directions both off-diagonal entries
    are [d / 11.11]. *)
Theorem duration_matrix_fallback (points : list Location) :
  (length points < 2 -> get_duration_matrix points = Ok [[0%float]])
  /\ (2 <= length points ->
      raises (osrm_table points) ->
      (forall i j p q, i <> j ->
         points !! i = Some p -> points !! j = Some q ->
         returns (haversine_distance_m p q)) ->
      exists mat,
        get_duration_matrix points = Ok mat
        /\ square (length points) mat
        /\ (forall i, i < length points -> get2 mat i i = Some 0%float)
        /\ (forall i j p q d, i <> j ->
              points !! i = Some p -> points !! j = Some q ->
              haversine_distance_m p q = Ok d ->
              get2 mat i j = Some (d / 11.11)%float)
        /\ (forall p0 p1 d, points = [p0; p1] ->
              haversine_distance_m p0 p1 = Ok d ->
              haversine_distance_m p1 p0 = Ok d ->
              get2 mat 0 1 = Some (d / 11.11)%float
              /\ get2 mat 1 0 = Some (d / 11.11)%float)).
Proof.
  unfold routing_engine.get_duration_matrix. split.
  { intros Hlt. by rewrite decide_True. }
  intros Hn Hfail Hdef. rewrite decide_False by lia.
  destruct (osrm_table points) as [?|e]; [done|].
  destruct (fallback_matrix_entries points Hdef) as (mat & Hrun & Hsq & Hget).
  assert (Hoff : forall i j p q d, i <> j ->
            points !! i = Some p -> points !! j = Some q ->
            haversine_distance_m p q = Ok d ->
            get2 mat i j = Some (d / 11.11)%float).
  { intros i j p q d Hne Hp Hq Hd.
    rewrite Hget by (by eapply lookup_lt_Some).
    unfold routing_engine.fallback_entry, pair_distance.
    rewrite decide_False by done. by rewrite Hp, Hq, Hd. }
  exists mat. split; [exact Hrun|]. split; [done|]. split; [|split; [done|]].
  - intros i Hi. rewrite Hget by done.
    unfold routing_engine.fallback_entry. by rewrite decide_True.
  - intros p0 p1 d -> H01 H10. split.
    + by apply (Hoff 0 1 p0 p1).
    + by apply (Hoff 1 0 p1 p0).
Qed.

End RoutingFacts.

(** [duration_matrix_fallback] on the two points of [tests/test_tools.py],
    1530 m apart, with the route service unreachable. *)
Lemma duration_matrix_fallback_witness :
  exists mat,
    routing_engine.get_duration_matrix demo.haversine_distance_m
      demo.osrm_table [demo.point_a; demo.point_b] = Ok mat
    /\ routing_engine.get2 mat 0 1 = Some 0x1.137a1cfbd43fap+7%float
    /\ routing_engine.get2 mat 1 0 = Some 0x1.137a1cfbd43fap+7%float
    /\ routing_engine.get2 mat 0 0 = Some 0%float
    /\ routing_engine.get2 mat 1 1 = Some 0%float.
Proof.
  destruct (duration_matrix_fallback demo.haversine_distance_m
              demo.osrm_table [demo.point_a; demo.point_b])
    as [_ H].
  destruct H as (mat & Hrun & _ & Hdiag & _ & Htwo).
  - cbn. lia.
  - exact I.
  - intros [|[|i]] [|[|j]] p q Hne Hp Hq; try done;
      cbn in Hp, Hq; simplify_eq; vm_compute; exact I.
  - exists mat. split; [exact Hrun|].
    destruct (Htwo demo.point_a demo.point_b 0x1.7e9195b0ed7aep+10%float)
      as [H01 H10]; [done|vm_compute; reflexivity|vm_compute; reflexivity|].
    rewrite H01, H10, !Hdiag by (cbn; lia).
    repeat split; f_equal; vm_compute; reflexivity.
Defined.

(** ** DispatcherAgent *)

Section DispatcherFacts.

Import dispatcher.

Variable haversine_distance_m : distance_fn.
Variable osrm_route : Location -> Location -> result routing_engine.RouteInfo.

Local Abbreviation get_route :=
  (routing_engine.get_route haversine_distance_m osrm_route).
Local Abbreviation choose := (dispatcher.choose haversine_distance_m osrm_route).
Local Abbreviation assign_loop :=
  (dispatcher.assign_loop haversine_distance_m osrm_route).
Local Abbreviation dispatch := (dispatcher._tick haversine_distance_m osrm_route).

Lemma filter_seq_none (P : nat -> Prop) `{forall x, Decision (P x)} len :
  forall start,
    (forall x, start <= x < start + len -> ~ P x) ->
    filter P (seq start len) = [].
Proof.
  induction len as [|len IH]; intros start Hnone; [done|].
  cbn [seq]. rewrite filter_cons_False by (apply Hnone; lia).
  apply IH. intros x Hx. apply Hnone. lia.
Qed.

(** Two positions satisfy [P]: they are what the filter keeps, in order. *)
Lemma filter_seq_two (P : nat -> Prop) `{forall x, Decision (P x)} n i j :
  i < j < n -> P i -> P j ->
  (forall x, x < n -> P x -> x = i \/ x = j) ->
  filter P (seq 0 n) = [i; j].
Proof.
  intros Hij Hi Hj Honly.
  assert (Hsplit : seq 0 n
            = seq 0 i ++ i :: seq (S i) (j - S i) ++ j :: seq (S j) (n - S j)).
  { replace n with (i + S ((j - S i) + S (n - S j))) at 1 by lia.
    rewrite seq_app. cbn [seq]. rewrite Nat.add_0_l. do 2 f_equal.
    rewrite seq_app. cbn [seq]. do 3 f_equal; lia. }
  rewrite Hsplit, filter_app, filter_cons_True, filter_app,
    filter_cons_True by done.
  rewrite !filter_seq_none; [done| | |];
    intros x Hx HP; destruct (Honly x) as [->| ->]; try done; lia.
Qed.

(** Agents that are not idle are passed over. *)
Lemma assign_loop_skip (before rest rest' : list DriverAgent)
    (pending : list package_ref) (pkgs pkgs' : list Package) (e : option exn) :
  Forall busy before ->
  assign_loop rest pending pkgs = (rest', pkgs', e) ->
  assign_loop (before ++ rest) pending pkgs = (before ++ rest', pkgs', e).
Proof.
  intros Hbusy Hrest. induction Hbusy as [|a before Ha _ IH]; [done|].
  cbn. rewrite decide_True by done. by rewrite IH.
Qed.

Lemma assign_loop_all_busy (agents : list DriverAgent)
    (pending : list package_ref) (pkgs : list Package) :
  Forall busy agents ->
  assign_loop agents pending pkgs = (agents, pkgs, None).
Proof.
  intros Hbusy. rewrite <- (app_nil_r agents) at 1.
  rewrite (assign_loop_skip agents [] [] pending pkgs pkgs None);
    [by rewrite app_nil_r|done|done].
Qed.

Section Nearest.

Variables (pkgs : list Package) (here : Location).
Variables (near far : package_ref) (p_near p_far : Package).
Variables (d_near d_far : float).

Hypothesis near_stored : pkgs !! near = Some p_near.
Hypothesis far_stored : pkgs !! far = Some p_far.
Hypothesis near_distance :
  haversine_distance_m here (package.pickup p_near) = Ok d_near.
Hypothesis far_distance :
  haversine_distance_m here (package.pickup p_far) = Ok d_far.
Hypothesis nearer : PrimFloat.ltb d_near d_far = true.
Hypothesis leg_returns :
  returns (get_route (package.pickup p_near) (package.dropoff p_near)).

(** Whatever the order of the two pending packages, the sort puts the
    nearer pickup first and [choose] takes it. *)
Lemma choose_nearest (pending : list package_ref) :
  pending = [near; far] \/ pending = [far; near] ->
  choose here pkgs pending = Ok (near, p_near, [far]).
Proof using near_stored far_stored near_distance far_distance nearer leg_returns.
  intros Hpending.
  assert (Hsort : sort_by_distance haversine_distance_m here pkgs pending
                  = Ok [near; far]).
  { unfold sort_by_distance, getitem.
    destruct Hpending as [-> | ->]; cbn;
      rewrite near_stored, far_stored; cbn;
      rewrite near_distance, far_distance; cbn.
    - by rewrite (float_ltb_asym _ _ nearer).
    - by rewrite nearer. }
  unfold dispatcher.choose. rewrite Hsort. cbn.
  unfold getitem. rewrite near_stored. cbn.
  assert (H1 : returns (get_route here (package.pickup p_near))).
  { apply get_route_returns. by rewrite near_distance. }
  destruct (get_route here _); [|done].
  by destruct (get_route (package.pickup p_near) _).
Qed.

End Nearest.

(** The two pending packages are what the dispatcher's filter keeps. *)
Lemma pending_two (pkgs : list Package) (i j : package_ref) (p q : Package) :
  i <> j ->
  pkgs !! i = Some p -> pkgs !! j = Some q ->
  package.status p = package.PENDING ->
  package.status q = package.PENDING ->
  (forall k r, pkgs !! k = Some r -> package.status r = package.PENDING ->
     k = i \/ k = j) ->
  let pending := filter (is_pending pkgs) (seq 0 (length pkgs)) in
  pending = [i; j] \/ pending = [j; i].
Proof.
  intros Hne Hi Hj Hp Hq Honly pending. subst pending.
  assert (Pi : is_pending pkgs i) by (unfold is_pending; by rewrite Hi, <- Hp).
  assert (Pj : is_pending pkgs j) by (unfold is_pending; by rewrite Hj, <- Hq).
  assert (Hall : forall x, x < length pkgs -> is_pending pkgs x ->
                   x = i \/ x = j).
  { intros x _ Hx. unfold is_pending in Hx.
    destruct (pkgs !! x) as [r|] eqn:Hr; [|done].
    injection Hx as Hx. by apply (Honly x r). }
  apply lookup_lt_Some in Hi as Hil. apply lookup_lt_Some in Hj as Hjl.
  destruct (decide (i < j)).
  - left. apply filter_seq_two; [lia|done|done|done].
  - right. apply filter_seq_two; [lia|done|done|].
    intros x Hx HP. destruct (Hall x Hx HP); auto.
Qed.

(** C1: one idle driver, two pending packages whose pickups are at
    distances [d_near < d_far] from the driver; the route legs of the
    nearer package can be looked up.  The tick of the dispatcher returns;
    the nearer package is then ASSIGNED to the driver, the farther one is
    as it was, PENDING, and so is every other package; the driver is sent
    along its own position, the pickup and the dropoff. *)
Theorem dispatch_assigns_nearest (sim : EnvironmentSimulator)
    (before after : list DriverAgent) (d_agent : DriverAgent)
    (near far : package_ref) (p_near p_far : Package)
    (d_near d_far : float) :
  let pkgs := simulator.packages sim in
  let here := driver.location (driver_agent.driver d_agent) in
  let driver_id := driver.id (driver_agent.driver d_agent) in
  simulator.drivers sim = before ++ d_agent :: after ->
  Forall busy before -> Forall busy after ->
  driver.status (driver_agent.driver d_agent) = driver.IDLE ->
  near <> far ->
  pkgs !! near = Some p_near -> pkgs !! far = Some p_far ->
  package.status p_near = package.PENDING ->
  package.status p_far = package.PENDING ->
  (forall k r, pkgs !! k = Some r -> package.status r = package.PENDING ->
     k = near \/ k = far) ->
  haversine_distance_m here (package.pickup p_near) = Ok d_near ->
  haversine_distance_m here (package.pickup p_far) = Ok d_far ->
  PrimFloat.ltb d_near d_far = true ->
  returns (get_route (package.pickup p_near) (package.dropoff p_near)) ->
  exists sim',
    dispatch sim = (sim', None)
    /\ (exists p, simulator.packages sim' !! near = Some p
                  /\ package.status p = package.ASSIGNED
                  /\ package.assigned_to p = Some driver_id)
    /\ (exists q, simulator.packages sim' !! far = Some q
                  /\ package.status q = package.PENDING
                  /\ package.assigned_to q = package.assigned_to p_far)
    /\ (forall k, k <> near ->
          simulator.packages sim' !! k = pkgs !! k)
    /\ simulator.drivers sim'
       = before
         ++ driver_agent.assign_route
              [here; package.pickup p_near; package.dropoff p_near]
              (Some [near]) d_agent
         :: after.
Proof.
  intros pkgs here driver_id Hds Hbefore Hafter Hidle Hne Hn Hf Hpn Hpf
    Honly Hdn Hdf Hlt Hleg.
  pose proof (pending_two pkgs near far p_near p_far Hne Hn Hf Hpn Hpf Honly)
    as Hpending. cbn zeta in Hpending.
  assert (Hchoose := choose_nearest pkgs here near far p_near p_far
                       d_near d_far Hn Hf Hdn Hdf Hlt Hleg _ Hpending).
  set (pkgs' := <[near := package.mark_assigned driver_id p_near]> pkgs).
  set (d_agent' := driver_agent.assign_route
                     [here; package.pickup p_near; package.dropoff p_near]
                     (Some [near]) d_agent).
  assert (Hloop : assign_loop (simulator.drivers sim)
                    (filter (is_pending pkgs) (seq 0 (length pkgs))) pkgs
                  = (before ++ d_agent' :: after, pkgs', None)).
  { rewrite Hds. apply assign_loop_skip; [done|].
    cbn [dispatcher.assign_loop]. rewrite decide_False by (by intros []).
    fold here. rewrite Hchoose.
    destruct Hpending as [-> | ->];
      by rewrite (assign_loop_all_busy after [far] _ Hafter). }
  exists (simulator.set_packages pkgs'
            (simulator.set_drivers (before ++ d_agent' :: after) sim)).
  split.
  { unfold dispatcher._tick. cbn [simulator.snapshot simulator.snap_drivers
      simulator.snap_packages]. fold pkgs. rewrite Hloop.
    destruct (filter is_idle _) as [|d0 ds] eqn:Hidles.
    - exfalso. rewrite Hds, map_app, filter_app in Hidles. cbn [map] in Hidles.
      rewrite filter_cons_True in Hidles by done.
      by apply app_eq_nil in Hidles as [_ ?].
    - by destruct Hpending as [-> | ->]. }
  cbn. apply lookup_lt_Some in Hn as Hnl. split; [|split; [|split]].
  - exists (package.mark_assigned driver_id p_near).
    split; [by apply list_lookup_insert_eq|done].
  - exists p_far. split; [|done].
    subst pkgs'. by rewrite list_lookup_insert_ne.
  - intros k Hk. subst pkgs'. by rewrite list_lookup_insert_ne.
  - done.
Qed.

End DispatcherFacts.

(** The tick of the dispatcher on the world of
    [test_dispatch_assigns_package]: [pkg_2], 843 m away, goes to [d1];
    [pkg_1], 1362 m away, stays pending. *)
Example dispatch_demo :
  let '(sim', e) :=
    dispatcher._tick demo.haversine_distance_m demo.osrm_route demo.world in
  e = None
  /\ map package.status (simulator.packages sim')
     = [package.PENDING; package.ASSIGNED]
  /\ map package.assigned_to (simulator.packages sim') = [None; Some "d1"]
  /\ map (fun a => driver.status (driver_agent.driver a))
         (simulator.drivers sim') = [driver.EN_ROUTE]
  /\ map driver_agent._route (simulator.drivers sim')
     = [Some [demo.home; demo.pickup_2; demo.dropoff_2]].
Proof. vm_compute. by repeat split. Qed.

(** [dispatch_assigns_nearest] on that world. *)
Lemma dispatch_assigns_nearest_witness :
  exists sim' p q,
    dispatcher._tick demo.haversine_distance_m demo.osrm_route demo.world
    = (sim', None)
    /\ simulator.packages sim' !! 1 = Some p
    /\ package.status p = package.ASSIGNED
    /\ package.assigned_to p = Some "d1"
    /\ simulator.packages sim' !! 0 = Some q
    /\ package.status q = package.PENDING.
Proof.
  destruct (dispatch_assigns_nearest demo.haversine_distance_m
              demo.osrm_route demo.world [] []
              (demo.new_agent "d1" demo.home) 1 0
              demo.package_2 demo.package_1
              0x1.a5912403a41dep+9%float 0x1.54838d4b1e1e9p+10%float)
    as (sim' & Ht & (p & Hp & Hs & Ha) & (q & Hq & Hqs & _) & _).
  - reflexivity.
  - apply Forall_nil_2.
  - apply Forall_nil_2.
  - reflexivity.
  - discriminate.
  - reflexivity.
  - reflexivity.
  - reflexivity.
  - reflexivity.
  - intros [|[|k]] r Hr _; [by right|by left|discriminate].
  - vm_compute. reflexivity.
  - vm_compute. reflexivity.
  - vm_compute. reflexivity.
  - vm_compute. exact I.
  - exists sim', p, q. auto 10.
Defined.

(** * Further properties of the modelled code *)

(** ** DriverAgent: what a tick can and cannot do *)

Section DriverAgentSafety.

Import driver_agent.

Variable settings : Settings.
Variable haversine_distance_m : distance_fn.

Local Abbreviation tick := (driver_agent.tick settings haversine_distance_m).
Local Abbreviation ticks := (driver_agent.ticks settings haversine_distance_m).
Local Abbreviation reachable :=
  (driver_agent.reachable settings haversine_distance_m).

(** X1: [tick] raises exactly when the agent has a current waypoint and the
    distance to it raises, and then with that exception: the index into the
    route and the division by the distance never fail. *)
Theorem tick_raises_iff (dt : float) (a : DriverAgent) (e : exn) :
  tick dt a = Raise e <->
  exists target,
    route_list a !! _cursor a = Some target
    /\ haversine_distance_m (driver.location (driver a)) target = Raise e.
Proof.
  unfold driver_agent.tick.
  destruct (route_falsy (_route a) || cursor_past_end a) eqn:Hno.
  - split; [done|]. intros (target & Hl & _).
    assert (Hsome : route_falsy (_route a) || cursor_past_end a = false)
      by (apply has_waypoint_lookup; eauto).
    congruence.
  - apply has_waypoint_lookup in Hno as [target Ht].
    unfold getitem. rewrite Ht. cbn.
    destruct (haversine_distance_m _ target) as [dist|e'] eqn:Hd; cbn.
    + split; [|by intros (t & [= <-] & ?); congruence].
      destruct (PrimFloat.leb dist _ || PrimFloat.ltb dist 1) eqn:Harr; [done|].
      apply orb_false_elim in Harr as [_ Hlt].
      by rewrite (float_div_defined _ _ Hlt).
    + split.
      * intros [= ->]. eauto.
      * intros (t & [= <-] & ?). congruence.
Qed.

(** X2: A tick that returns changes the driver's location, its status and the
    cursor, and nothing else; the cursor stays or advances by one and never
    passes the end of the route; the status stays or becomes IDLE. *)
Theorem tick_changes_only_position (dt : float) (a a' : DriverAgent) :
  tick dt a = Ok a' ->
  _route a' = _route a
  /\ _packages a' = _packages a
  /\ driver.id (driver a') = driver.id (driver a)
  /\ driver.speed_mps (driver a') = driver.speed_mps (driver a)
  /\ driver.assigned_packages (driver a')
     = driver.assigned_packages (driver a)
  /\ driver.route (driver a') = driver.route (driver a)
  /\ (_cursor a' = _cursor a
      \/ (_cursor a' = S (_cursor a)
          /\ _cursor a' <= length (route_list a)))
  /\ (driver.status (driver a') = driver.status (driver a)
      \/ driver.status (driver a') = driver.IDLE).
Proof.
  intros [[_ ->]|(target & Hl & [->|[f ->]])]%tick_Ok.
  - unfold tick_idle. case_decide; cbn; repeat split; auto.
  - apply lookup_lt_Some in Hl. cbn.
    split; [done|]. split; [done|]. split; [done|]. split; [done|].
    split; [done|]. split; [done|]. split; [|by left].
    right. split; [done|lia].
  - cbn. repeat split; auto.
Qed.

(** X3: The agent never writes the [route] and [assigned_packages] fields of
    its [Driver]: whatever routes and packages it is given, they stay
    [None] and empty, so readers of the [Driver] objects of a snapshot see
    no route. *)
Theorem agent_leaves_model_route_unset (allowed : list Location -> Prop)
    (a : DriverAgent) :
  reachable allowed a ->
  driver.route (driver a) = None
  /\ driver.assigned_packages (driver a) = [].
Proof.
  induction 1 as [| dt a a' _ IH Ht | |]; try done.
  apply tick_Ok in Ht as [[_ ->]|(target & _ & [->|[f ->]])]; try done.
  unfold tick_idle. by case_decide.
Qed.

(** X4: An IDLE agent with no waypoint left stays exactly as it is, however
    many ticks it gets. *)
Theorem idle_agent_stays (dt : float) (n : nat) (a : DriverAgent) :
  driver.status (driver a) = driver.IDLE ->
  length (route_list a) <= _cursor a ->
  ticks dt n a = Ok a.
Proof.
  intros Hidle Hle. induction n as [|n IH]; [done|].
  cbn. rewrite (tick_exhausted settings haversine_distance_m dt a Hle). cbn.
  unfold tick_idle. rewrite decide_False by (by intros []). exact IH.
Qed.

End DriverAgentSafety.

(** ** EnvironmentSimulator: what a tick keeps *)

Section SimulatorFrame.

Variable settings : Settings.
Variable haversine_distance_m : distance_fn.

Local Abbreviation try_tick := (simulator.try_tick settings haversine_distance_m).
Local Abbreviation sim_tick := (simulator._tick settings haversine_distance_m).

Lemma try_tick_frame (dt : float) (d : DriverAgent) :
  driver.id (driver_agent.driver (try_tick dt d))
  = driver.id (driver_agent.driver d)
  /\ driver_agent._route (try_tick dt d) = driver_agent._route d
  /\ driver_agent._packages (try_tick dt d) = driver_agent._packages d.
Proof.
  unfold simulator.try_tick.
  destruct (driver_agent.tick _ _ dt d) as [d'|] eqn:Ht; [|done].
  apply tick_frame in Ht as (? & ? & _ & ?). done.
Qed.

(** X6: The tick of the simulator keeps the packages, the clock and the
    drivers in their order: the same number of agents, each with the id,
    the route and the packages it had.  This holds whether or not ticks of
    drivers raise. *)
Theorem simulator_tick_frame (sim : EnvironmentSimulator) :
  simulator.packages (sim_tick sim) = simulator.packages sim
  /\ simulator.current_time (sim_tick sim) = simulator.current_time sim
  /\ simulator._tick_seconds (sim_tick sim) = simulator._tick_seconds sim
  /\ length (simulator.drivers (sim_tick sim))
     = length (simulator.drivers sim)
  /\ map (fun d => driver.id (driver_agent.driver d))
         (simulator.drivers (sim_tick sim))
     = map (fun d => driver.id (driver_agent.driver d)) (simulator.drivers sim)
  /\ map driver_agent._route (simulator.drivers (sim_tick sim))
     = map driver_agent._route (simulator.drivers sim)
  /\ map driver_agent._packages (simulator.drivers (sim_tick sim))
     = map driver_agent._packages (simulator.drivers sim).
Proof.
  unfold simulator._tick. cbn. rewrite length_map, !map_map.
  repeat split; apply map_ext; intros d;
    by destruct (try_tick_frame (simulator._tick_seconds sim) d) as (? & ? & ?).
Qed.

End SimulatorFrame.

(** ** RoutingEngine.get_route *)

Section GetRoute.

Variable haversine_distance_m : distance_fn.
Variable osrm_route : Location -> Location -> result routing_engine.RouteInfo.

Local Abbreviation get_route :=
  (routing_engine.get_route haversine_distance_m osrm_route).

(** X7: [get_route] raises exactly when the request to OSRM fails and the
    haversine estimate of the fallback raises too, and then with the
    exception of the estimate. *)
Theorem get_route_raises_iff (origin destination : Location) (e : exn) :
  get_route origin destination = Raise e <->
  raises (osrm_route origin destination)
  /\ haversine_distance_m origin destination = Raise e.
Proof.
  unfold routing_engine.get_route.
  destruct (osrm_route origin destination) as [r|e']; cbn.
  - split; [done|]. by intros [[] _].
  - destruct (haversine_distance_m origin destination) as [d|e'']; cbn.
    + split; [done|]. by intros [_ ?].
    + split; [by intros [= ->]|]. by intros [_ [= ->]].
Qed.

(** X8: The fallback of [get_route]: with OSRM down and the points [distance]
    metres apart, the answer carries that distance, and the duration is
    [distance / 11.11] when [distance > 0] and zero otherwise, so it is
    zero for coinciding points and for a NaN distance alike. *)
Theorem get_route_fallback (origin destination : Location) (distance : float) :
  raises (osrm_route origin destination) ->
  haversine_distance_m origin destination = Ok distance ->
  exists info,
    get_route origin destination = Ok info
    /\ routing_engine.distance_m info = Some distance
    /\ (PrimFloat.ltb 0%float distance = true ->
        routing_engine.duration_s info = Some (distance / 11.11)%float)
    /\ (PrimFloat.ltb 0%float distance = false ->
        routing_engine.duration_s info = Some 0%float).
Proof.
  intros Hdown Hd. unfold routing_engine.get_route.
  destruct (osrm_route origin destination) as [r|e']; [done|].
  rewrite Hd. cbn. eexists. split; [reflexivity|]. cbn.
  split; [done|]. split; by intros ->.
Qed.

End GetRoute.

(** [get_route_fallback] between the home of the tests and the pickup of
    [pkg_2]: 843 m, 75.9 s. *)
Lemma get_route_fallback_witness :
  exists info,
    routing_engine.get_route demo.haversine_distance_m demo.osrm_route
      demo.home demo.pickup_2 = Ok info
    /\ routing_engine.distance_m info = Some 0x1.a5912403a41dep+9%float
    /\ routing_engine.duration_s info = Some 0x1.2f8efe0d38a73p+6%float.
Proof.
  destruct (get_route_fallback demo.haversine_distance_m demo.osrm_route
              demo.home demo.pickup_2 0x1.a5912403a41dep+9%float)
    as (info & Hget & Hdist & Hpos & _).
  - exact I.
  - vm_compute. reflexivity.
  - exists info. split; [exact Hget|]. split; [exact Hdist|].
    rewrite Hpos by (vm_compute; reflexivity).
    vm_compute. reflexivity.
Defined.

(** ** DispatcherAgent: every tick, on every world *)

Section DispatcherSafety.

Import dispatcher fleet.

Variable haversine_distance_m : distance_fn.
Variable osrm_route : Location -> Location -> result routing_engine.RouteInfo.

Local Abbreviation choose := (dispatcher.choose haversine_distance_m osrm_route).
Local Abbreviation assign_loop :=
  (dispatcher.assign_loop haversine_distance_m osrm_route).
Local Abbreviation dispatch := (dispatcher._tick haversine_distance_m osrm_route).

Lemma insert_keyed_perm {A} (x : float * A) (l : list (float * A)) :
  insert_keyed x l ≡ₚ x :: l.
Proof.
  induction l as [|y l IH]; [done|]. cbn.
  destruct (PrimFloat.ltb _ _); [|done]. rewrite IH. apply Permutation_swap.
Qed.

Lemma sort_keyed_perm {A} (l : list (float * A)) : sort_keyed l ≡ₚ l.
Proof.
  induction l as [|x l IH]; [done|]. cbn.
  by rewrite insert_keyed_perm, IH.
Qed.

(** The keys computed for the sort carry the references in their order. *)
Lemma keyed_refs (here : Location) (pkgs : list Package)
    (pending : list package_ref) (keyed : list (float * package_ref)) :
  mapM (fun ref =>
          p ← getitem pkgs ref;
          k ← haversine_distance_m here (package.pickup p);
          mret (k, ref)) pending = Ok keyed ->
  keyed.*2 = pending.
Proof.
  revert keyed. induction pending as [|r pending IH]; intros keyed.
  { by intros [= <-]. }
  cbn. destruct (getitem pkgs r) as [p|]; cbn; [|done].
  destruct (haversine_distance_m here _) as [k|]; cbn; [|done].
  destruct (mapM _ pending) as [keyed'|]; cbn; [|done].
  intros [= <-]. cbn. f_equal. by apply IH.
Qed.

Lemma sort_by_distance_perm (here : Location) (pkgs : list Package)
    (pending sorted : list package_ref) :
  sort_by_distance haversine_distance_m here pkgs pending = Ok sorted ->
  sorted ≡ₚ pending.
Proof.
  unfold sort_by_distance.
  destruct (mapM _ pending) as [keyed|] eqn:Hkeyed; cbn; [|done].
  intros [= <-]. apply keyed_refs in Hkeyed as <-.
  apply fmap_Permutation, sort_keyed_perm.
Qed.

(** [choose] takes one of the pending references and leaves the others. *)
Lemma choose_Ok (here : Location) (pkgs : list Package)
    (pending pending' : list package_ref) (ref : package_ref) (pkg : Package) :
  choose here pkgs pending = Ok (ref, pkg, pending') ->
  ref :: pending' ≡ₚ pending /\ pkgs !! ref = Some pkg.
Proof.
  unfold dispatcher.choose.
  destruct (sort_by_distance _ here pkgs pending) as [sorted|] eqn:Hs;
    cbn; [|done].
  apply sort_by_distance_perm in Hs. destruct sorted as [|r sorted]; [done|].
  unfold getitem. destruct (pkgs !! r) as [p|] eqn:Hp; cbn; [|done].
  destruct (routing_engine.get_route _ _ here _); cbn; [|done].
  destruct (routing_engine.get_route _ _ (package.pickup p) _); cbn; [|done].
  by intros [= <- <- <-].
Qed.

Lemma n_pending_insert (pkgs : list Package) (r : package_ref)
    (p q : Package) :
  pkgs !! r = Some p ->
  package.status p = package.PENDING ->
  package.status q <> package.PENDING ->
  n_pending (<[r := q]> pkgs) + 1 = n_pending pkgs.
Proof.
  intros Hr Hp Hq. unfold n_pending.
  rewrite insert_take_drop by (by eapply lookup_lt_Some).
  rewrite <- (take_drop_middle pkgs r p Hr) at 3.
  rewrite !filter_app, !length_app.
  rewrite filter_cons_False, filter_cons_True by done. cbn. lia.
Qed.

Lemma filter_ext_in {A} (P Q : A -> Prop) `{forall x, Decision (P x)}
    `{forall x, Decision (Q x)} (l : list A) :
  (forall x, x ∈ l -> P x <-> Q x) -> filter P l = filter Q l.
Proof.
  induction l as [|x l IH]; intros Hext; [done|].
  rewrite !filter_cons, IH by (intros y Hy; apply Hext; by right).
  apply decide_ext, Hext. by left.
Qed.

(** The references the dispatcher keeps are as many as the pending
    packages. *)
Lemma pending_refs_length (pkgs : list Package) :
  length (filter (is_pending pkgs) (seq 0 (length pkgs))) = n_pending pkgs.
Proof.
  unfold n_pending. induction pkgs as [|p pkgs IH] using rev_ind; [done|].
  rewrite length_app. cbn [length]. rewrite Nat.add_1_r, seq_S.
  rewrite !filter_app, !length_app. cbn [Nat.add]. f_equal.
  - rewrite <- IH. f_equal. apply filter_ext_in.
    intros i Hi. apply elem_of_seq in Hi as [_ Hi]. unfold is_pending.
    by rewrite lookup_app_l by lia.
  - assert (Hlast : (pkgs ++ [p]) !! length pkgs = Some p).
    { by rewrite lookup_app_r, Nat.sub_diag by lia. }
    destruct (decide (package.status p = package.PENDING)) as [Hp|Hp].
    + rewrite !filter_cons_True; [done|done|].
      unfold is_pending. by rewrite Hlast, <- Hp.
    + rewrite !filter_cons_False; [done|done|].
      unfold is_pending. rewrite Hlast. cbn. congruence.
Qed.

Lemma idle_drivers_length (agents : list DriverAgent) :
  length (filter is_idle (map driver_agent.driver agents)) = n_idle agents.
Proof.
  unfold n_idle. induction agents as [|a agents IH]; [done|]. cbn [map].
  destruct (decide (is_idle (driver_agent.driver a))).
  - rewrite !filter_cons_True by done. cbn. by rewrite IH.
  - by rewrite !filter_cons_False by done.
Qed.

Lemma n_idle_busy (a : DriverAgent) (agents : list DriverAgent) :
  busy a -> n_idle (a :: agents) = n_idle agents.
Proof. intros Ha. unfold n_idle. by rewrite filter_cons_False. Qed.

Lemma n_idle_idle (a : DriverAgent) (agents : list DriverAgent) :
  driver.status (driver_agent.driver a) = driver.IDLE ->
  n_idle (a :: agents) = S (n_idle agents).
Proof. intros Ha. unfold n_idle. by rewrite filter_cons_True. Qed.

Lemma dispatched_weaken (pending pending' : list package_ref)
    (pkgs pkgs1 pkgs' : list Package) (a a' : DriverAgent) :
  (forall r, r ∈ pending' -> r ∈ pending /\ pkgs1 !! r = pkgs !! r) ->
  dispatched pending' pkgs1 pkgs' a a' -> dispatched pending pkgs pkgs' a a'.
Proof.
  intros Hsub [->|(Hidle & r & p & Hr & Hp & Hs & -> & Hp')]; [by left|].
  right. split; [done|]. exists r, p. destruct (Hsub r Hr) as [? <-]. done.
Qed.

(** The loop of the dispatcher, from any point of the list of agents:
    [pending] holds distinct references to packages that are PENDING. *)
Lemma assign_loop_spec (agents : list DriverAgent) :
  forall (pending : list package_ref) (pkgs : list Package)
         (agents' : list DriverAgent) (pkgs' : list Package) (e : option exn),
    NoDup pending ->
    (forall r, r ∈ pending -> is_pending pkgs r) ->
    assign_loop agents pending pkgs = (agents', pkgs', e) ->
    length pkgs' = length pkgs
    /\ (forall k, k ∉ pending -> pkgs' !! k = pkgs !! k)
    /\ (forall k p p', pkgs !! k = Some p -> pkgs' !! k = Some p' ->
          assigned_step agents p p')
    /\ Forall2 (dispatched pending pkgs pkgs') agents agents'
    /\ n_idle agents' + n_pending pkgs = n_idle agents + n_pending pkgs'
    /\ (e = None ->
        n_idle agents' = n_idle agents - min (n_idle agents) (length pending)).
Proof.
  induction agents as [|a agents IH]; intros pending pkgs agents' pkgs' e
    Hnodup Hpend Hloop.
  { injection Hloop as <- <- <-. repeat split; try done.
    intros k p p' Hk Hk'. left. congruence. }
  cbn [dispatcher.assign_loop] in Hloop.
  destruct (decide (driver.status (driver_agent.driver a) <> driver.IDLE))
    as [Hbusy|Hidle].
  - (* a busy agent is passed over *)
    destruct (assign_loop agents pending pkgs) as [[rest' pkgs''] e'] eqn:Hrest.
    injection Hloop as <- <- <-.
    destruct (IH _ _ _ _ _ Hnodup Hpend Hrest)
      as (Hlen & Hout & Hstep & Hag & Hbal & Hmin).
    rewrite !n_idle_busy by done.
    split; [done|]. split; [done|]. split; [|split; [|done]].
    + intros k p p' Hk Hk'. destruct (Hstep k p p' Hk Hk')
        as [->|(Hp & a0 & Ha0 & Hid & ->)]; [by left|].
      right. split; [done|]. exists a0. split; [by right|done].
    + constructor; [by left|done].
  - apply dec_stable in Hidle.
    destruct pending as [|r0 pending0] eqn:Hpending.
    { (* no package left: the loop ends *)
      injection Hloop as <- <- <-. cbn [length]. rewrite Nat.min_0_r, Nat.sub_0_r.
      repeat split; try done.
      - intros k p p' Hk Hk'. left. congruence.
      - apply Forall2_same_length_lookup_2; [done|]. intros i x y Hx Hy.
        left. congruence. }
    rewrite <- Hpending in *. clear Hpending r0 pending0.
    destruct (choose (driver.location (driver_agent.driver a)) pkgs pending)
      as [[[ref pkg] pending']|e0] eqn:Hchoose.
    2:{ (* the choice raised: the loop ends with the exception *)
      injection Hloop as <- <- <-.
      repeat split; try done.
      - intros k p p' Hk Hk'. left. congruence.
      - apply Forall2_same_length_lookup_2; [done|]. intros i x y Hx Hy.
        left. congruence. }
    apply choose_Ok in Hchoose as [Hperm Hpkg].
    set (pkgs1 := <[ref := package.mark_assigned
                             (driver.id (driver_agent.driver a)) pkg]> pkgs)
      in *.
    destruct (assign_loop agents pending' pkgs1) as [[rest' pkgs''] e'] eqn:Hrest.
    injection Hloop as <- <- <-.
    assert (Hnodup' : NoDup (ref :: pending')) by by rewrite Hperm.
    apply NoDup_cons in Hnodup' as [Hfresh Hnodup'].
    assert (Hin : forall r, r ∈ pending' -> r ∈ pending /\ r <> ref).
    { intros r Hr. split; [rewrite <- Hperm; by right|]. by intros ->. }
    assert (Href : ref ∈ pending) by (rewrite <- Hperm; by left).
    assert (Hstatus : package.status pkg = package.PENDING).
    { specialize (Hpend ref Href). unfold is_pending in Hpend.
      rewrite Hpkg in Hpend. by injection Hpend. }
    assert (Hpend1 : forall r, r ∈ pending' -> is_pending pkgs1 r).
    { intros r Hr. destruct (Hin r Hr) as [Hr' Hne]. unfold is_pending, pkgs1.
      rewrite list_lookup_insert_ne by done. by apply Hpend. }
    destruct (IH _ _ _ _ _ Hnodup' Hpend1 Hrest)
      as (Hlen & Hout & Hstep & Hag & Hbal & Hmin).
    assert (Hlen1 : length pkgs1 = length pkgs) by apply length_insert.
    assert (Href' : pkgs'' !! ref
              = Some (package.mark_assigned
                        (driver.id (driver_agent.driver a)) pkg)).
    { rewrite (Hout ref Hfresh). unfold pkgs1.
      apply list_lookup_insert_eq. by eapply lookup_lt_Some. }
    split; [congruence|]. split; [|split; [|split; [|split]]].
    + intros k Hk. rewrite Hout.
      * unfold pkgs1. apply list_lookup_insert_ne. by intros ->.
      * intros Hk'. by destruct (Hin k Hk').
    + intros k p p' Hk Hk'. destruct (decide (k = ref)) as [->|Hne].
      * right. assert (p = pkg) as -> by congruence.
        split; [done|]. exists a. split; [by left|]. split; [done|]. congruence.
      * assert (Hk1 : pkgs1 !! k = Some p).
        { unfold pkgs1. by rewrite list_lookup_insert_ne. }
        destruct (Hstep k p p' Hk1 Hk')
          as [->|(Hp & a0 & Ha0 & Hid & ->)]; [by left|].
        right. split; [done|]. exists a0. split; [by right|done].
    + constructor.
      * right. split; [done|]. exists ref, pkg. done.
      * eapply Forall2_impl; [exact Hag|]. intros x y.
        apply dispatched_weaken. intros r Hr. destruct (Hin r Hr) as [? Hne].
        split; [done|]. unfold pkgs1. by rewrite list_lookup_insert_ne.
    + rewrite n_idle_busy by (cbn; by intros [=]).
      rewrite n_idle_idle by done.
      pose proof (n_pending_insert pkgs ref pkg
                    (package.mark_assigned
                       (driver.id (driver_agent.driver a)) pkg) Hpkg Hstatus)
        as Hcount. fold pkgs1 in Hcount. specialize (Hcount ltac:(done)). lia.
    + intros He. specialize (Hmin He).
      rewrite n_idle_busy by (cbn; by intros [=]).
      rewrite n_idle_idle by done.
      apply Permutation_length in Hperm. cbn in Hperm. rewrite <- Hperm. cbn. lia.
Qed.

(** The references [_tick] starts its loop with. *)
Lemma pending_refs_wf (pkgs : list Package) :
  NoDup (filter (is_pending pkgs) (seq 0 (length pkgs)))
  /\ forall r, r ∈ filter (is_pending pkgs) (seq 0 (length pkgs)) ->
       is_pending pkgs r.
Proof.
  split; [apply NoDup_filter, NoDup_seq|].
  by intros r [? _]%list_elem_of_filter.
Qed.

(** [_tick] is its loop, or nothing at all when a side is empty. *)
Lemma dispatch_cases (sim : EnvironmentSimulator) :
  (dispatch sim = (sim, None)
   /\ (n_idle (simulator.drivers sim) = 0
       \/ n_pending (simulator.packages sim) = 0))
  \/ (exists agents' pkgs' e,
        assign_loop (simulator.drivers sim)
          (filter (is_pending (simulator.packages sim))
                  (seq 0 (length (simulator.packages sim))))
          (simulator.packages sim) = (agents', pkgs', e)
        /\ dispatch sim
           = (simulator.set_packages pkgs'
                (simulator.set_drivers agents' sim), e)).
Proof.
  unfold dispatcher._tick.
  cbn [simulator.snapshot simulator.snap_drivers simulator.snap_packages].
  pose proof (idle_drivers_length (simulator.drivers sim)) as Hidle.
  pose proof (pending_refs_length (simulator.packages sim)) as Hpend.
  destruct (filter is_idle _) as [|d ds].
  { left. split; [done|]. left. by rewrite <- Hidle. }
  destruct (filter (is_pending _) _) as [|r rs] eqn:Hrefs.
  { left. split; [done|]. right. by rewrite <- Hpend. }
  right. destruct (assign_loop _ _ _) as [[agents' pkgs'] e] eqn:Hloop.
  by exists agents', pkgs', e.
Qed.

(** X9: With no IDLE driver or no PENDING package the tick of the dispatcher
    changes nothing and raises nothing. *)
Theorem dispatch_noop (sim : EnvironmentSimulator) :
  n_idle (simulator.drivers sim) = 0
  \/ n_pending (simulator.packages sim) = 0 ->
  dispatch sim = (sim, None).
Proof.
  intros Hnone. unfold dispatcher._tick.
  cbn [simulator.snapshot simulator.snap_drivers simulator.snap_packages].
  pose proof (idle_drivers_length (simulator.drivers sim)) as Hidle.
  pose proof (pending_refs_length (simulator.packages sim)) as Hpend.
  destruct (filter is_idle _) as [|d ds]; [done|].
  destruct (filter (is_pending _) _) as [|r rs]; [done|].
  cbn in Hidle, Hpend. lia.
Qed.

(** What the tick of the dispatcher does to each package and agent. *)
Lemma dispatch_steps (sim : EnvironmentSimulator) :
  let sim' := (dispatch sim).1 in
  let pkgs := simulator.packages sim in
  simulator.current_time sim' = simulator.current_time sim
  /\ simulator._tick_seconds sim' = simulator._tick_seconds sim
  /\ Forall2 (assigned_step (simulator.drivers sim))
       pkgs (simulator.packages sim')
  /\ Forall2 (dispatched (seq 0 (length pkgs)) pkgs (simulator.packages sim'))
       (simulator.drivers sim) (simulator.drivers sim').
Proof.
  intros sim' pkgs. subst sim' pkgs.
  destruct (dispatch_cases sim) as [[-> _]|(agents' & pkgs' & e & Hloop & ->)].
  - cbn. split; [done|]. split; [done|]. split.
    + apply Forall2_same_length_lookup_2; [done|]. intros i x y Hx Hy.
      left. congruence.
    + apply Forall2_same_length_lookup_2; [done|]. intros i x y Hx Hy.
      left. congruence.
  - destruct (pending_refs_wf (simulator.packages sim)) as [Hnodup Hpend].
    destruct (assign_loop_spec _ _ _ _ _ _ Hnodup Hpend Hloop)
      as (Hlen & _ & Hstep & Hag & _). cbn.
    split; [done|]. split; [done|]. split.
    + apply Forall2_same_length_lookup_2; [done|]. intros i x y Hx Hy.
      by apply (Hstep i).
    + eapply Forall2_impl; [exact Hag|]. intros a a'.
      apply dispatched_weaken. intros r [_ Hr]%list_elem_of_filter. done.
Qed.

(** The tick of the dispatcher takes as many positions of the drivers out
    of IDLE as positions of the packages out of PENDING. *)
Lemma dispatch_counts (sim : EnvironmentSimulator) :
  let sim' := (dispatch sim).1 in
  let idle := n_idle (simulator.drivers sim) in
  let pending := n_pending (simulator.packages sim) in
  n_idle (simulator.drivers sim') + pending
  = idle + n_pending (simulator.packages sim')
  /\ ((dispatch sim).2 = None ->
      n_idle (simulator.drivers sim') = idle - min idle pending
      /\ n_pending (simulator.packages sim') = pending - min idle pending).
Proof.
  intros sim' idle pending. subst sim' idle pending.
  destruct (dispatch_cases sim)
    as [[-> Hnone]|(agents' & pkgs' & e & Hloop & ->)]; cbn [fst snd].
  - split; [done|]. intros _. lia.
  - destruct (pending_refs_wf (simulator.packages sim)) as [Hnodup Hpend].
    destruct (assign_loop_spec _ _ _ _ _ _ Hnodup Hpend Hloop)
      as (_ & _ & _ & _ & Hbal & Hmin).
    rewrite pending_refs_length in Hmin. cbn [simulator.drivers simulator.packages
      simulator.set_packages simulator.set_drivers].
    split; [done|]. intros He. specialize (Hmin He). lia.
Qed.

End DispatcherSafety.

(** ** The running system *)

Section FleetInvariant.

Import fleet.

Variable settings : Settings.
Variable haversine_distance_m : distance_fn.
Variable osrm_route : Location -> Location -> result routing_engine.RouteInfo.

Local Abbreviation tick := (driver_agent.tick settings haversine_distance_m).
Local Abbreviation try_tick := (simulator.try_tick settings haversine_distance_m).
Local Abbreviation dispatch := (dispatcher._tick haversine_distance_m osrm_route).
Local Abbreviation step := (fleet.step settings haversine_distance_m osrm_route).
Local Abbreviation reachable :=
  (fleet.reachable settings haversine_distance_m osrm_route).

Lemma tick_consistent (dt : float) (a a' : DriverAgent) :
  driver_agent.consistent a -> tick dt a = Ok a' -> driver_agent.consistent a'.
Proof.
  intros IH Ht. apply tick_Ok in Ht as [[Hno ->]|(target & Hl & H)].
  - unfold driver_agent.consistent, driver_agent.tick_idle in *.
    case_decide as Hs; [|done].
    unfold driver_agent.cursor_past_end, driver_agent.route_list in Hno. cbn.
    destruct (driver_agent._route a) as [route|]; cbn in *.
    + destruct IH as (Hne & Hle & _). split; [done|]. split; [done|].
      right. split; [done|]. destruct route; [done|]. cbn in Hno.
      apply bool_decide_eq_true in Hno. cbn in *. lia.
    + by destruct IH.
  - unfold driver_agent.consistent, driver_agent.route_list in *.
    apply lookup_lt_Some in Hl.
    destruct H as [->|[f ->]]; cbn; destruct (driver_agent._route a) as [route|];
      cbn in *; try lia.
    + destruct IH as (Hne & Hle & [Hs|[_ Hc]]); [|lia].
      split; [done|]. split; [lia|]. by left.
    + destruct IH as (Hne & Hle & [Hs|[_ Hc]]); [|lia].
      split; [done|]. split; [lia|]. by left.
Qed.

Lemma try_tick_consistent (dt : float) (a : DriverAgent) :
  driver_agent.consistent a -> driver_agent.consistent (try_tick dt a).
Proof.
  intros Ha. unfold simulator.try_tick.
  destruct (tick dt a) as [a'|] eqn:Ht; [|done]. by eapply tick_consistent.
Qed.

Lemma package_ok_mono (ids ids' : list string) (p : Package) :
  (forall id, id ∈ ids -> id ∈ ids') -> package_ok ids p -> package_ok ids' p.
Proof.
  intros Hsub [?|(Hs & id & Ha & Hin)]; [by left|].
  right. split; [done|]. exists id. auto.
Qed.

Lemma driver_id_in (a : DriverAgent) (agents : list DriverAgent) :
  a ∈ agents -> driver.id (driver_agent.driver a) ∈ driver_ids agents.
Proof.
  intros Ha. unfold driver_ids. apply list_elem_of_In.
  apply (in_map (fun a => driver.id (driver_agent.driver a))).
  by apply list_elem_of_In.
Qed.

(** The dispatcher keeps the ids of the drivers. *)
Lemma dispatched_ids pending pkgs pkgs' (agents agents' : list DriverAgent) :
  Forall2 (dispatched pending pkgs pkgs') agents agents' ->
  driver_ids agents' = driver_ids agents.
Proof.
  induction 1 as [|a a' agents agents' Ha _ IH]; [done|].
  unfold driver_ids in *. cbn. f_equal; [|done].
  by destruct Ha as [->|(_ & r & p & _ & _ & _ & -> & _)].
Qed.

Lemma world_ok_dispatch (sim : EnvironmentSimulator) :
  world_ok sim -> world_ok (dispatch sim).1.
Proof.
  intros (Hpk & Hcons & Hheld).
  destruct (dispatch_steps haversine_distance_m osrm_route sim)
    as (_ & _ & Hstep & Hag).
  set (sim' := (dispatch sim).1) in *. unfold world_ok.
  rewrite (dispatched_ids _ _ _ _ _ Hag).
  split; [|split].
  - apply Forall_lookup. intros i p' Hp'.
    destruct (Forall2_lookup_r _ _ _ _ _ Hstep Hp') as (p & Hp & Hpp').
    pose proof (proj1 (Forall_lookup _ _) Hpk i p Hp) as Hok.
    destruct Hpp' as [->|(Hs & a & Ha & Hidle & ->)]; [done|].
    right. split; [done|]. eexists. split; [reflexivity|].
    by apply driver_id_in.
  - apply Forall_lookup. intros i a' Ha'.
    destruct (Forall2_lookup_r _ _ _ _ _ Hag Ha') as (a & Ha & Haa').
    pose proof (proj1 (Forall_lookup _ _) Hcons i a Ha) as Hok.
    destruct Haa' as [->|(_ & r & p & _ & _ & _ & -> & _)]; [done|].
    unfold driver_agent.consistent. cbn. split; [done|]. split; [lia|]. by left.
  - apply Forall_lookup. intros i a' Ha'.
    destruct (Forall2_lookup_r _ _ _ _ _ Hag Ha') as (a & Ha & Haa').
    pose proof (proj1 (Forall_lookup _ _) Hheld i a Ha) as Hok.
    destruct Haa' as [->|(_ & r & p & _ & Hp & Hs & -> & Hp')].
    + intros r Hr. destruct (Hok r Hr) as (p & Hp & Hs & Hto).
      destruct (Forall2_lookup_l _ _ _ _ _ Hstep Hp) as (p' & Hp' & Hpp').
      exists p'. split; [done|].
      destruct Hpp' as [->|(Hpend & _)]; [done|]. congruence.
    + intros r' Hr'. cbn in Hr'. apply list_elem_of_singleton in Hr' as ->.
      eexists. split; [exact Hp'|]. done.
Qed.

Lemma world_ok_motion (sim : EnvironmentSimulator) :
  world_ok sim ->
  world_ok (simulator._tick settings haversine_distance_m sim).
Proof.
  intros (Hpk & Hcons & Hheld). unfold world_ok, simulator._tick.
  cbn [simulator.drivers simulator.packages simulator.set_drivers].
  assert (Hids : driver_ids (map (try_tick (simulator._tick_seconds sim))
                               (simulator.drivers sim))
                 = driver_ids (simulator.drivers sim)).
  { unfold driver_ids. rewrite map_map. apply map_ext. intros a.
    by destruct (try_tick_frame settings haversine_distance_m
                   (simulator._tick_seconds sim) a) as (? & _). }
  rewrite Hids. split; [done|]. split.
  - apply Forall_map. eapply Forall_impl; [exact Hcons|].
    intros a. apply try_tick_consistent.
  - apply Forall_map. eapply Forall_impl; [exact Hheld|].
    intros a Ha r.
    destruct (try_tick_frame settings haversine_distance_m
                (simulator._tick_seconds sim) a) as (-> & _ & ->).
    apply Ha.
Qed.

Lemma world_ok_step (sim sim' : EnvironmentSimulator) :
  world_ok sim -> step sim sim' -> world_ok sim'.
Proof.
  intros Hok Hstep. destruct Hstep as [sim id start|sim id pk dr now|sim now|sim|sim].
  - destruct Hok as (Hpk & Hcons & Hheld). unfold world_ok. cbn.
    split; [|split].
    + eapply Forall_impl; [exact Hpk|]. intros p. apply package_ok_mono.
      intros i Hi. unfold driver_ids. rewrite map_app. apply elem_of_app. by left.
    + apply Forall_app. split; [done|]. by repeat constructor.
    + apply Forall_app. split; [done|]. constructor; [|done].
      intros r Hr. cbn in Hr. by apply elem_of_nil in Hr.
  - destruct Hok as (Hpk & Hcons & Hheld). unfold world_ok. cbn.
    split; [|split; [done|]].
    + apply Forall_app. split; [done|]. constructor; [|done]. by left.
    + eapply Forall_impl; [exact Hheld|]. intros a Ha r Hr.
      destruct (Ha r Hr) as (p & Hp & ?). exists p. split; [|done].
      by apply lookup_app_l_Some.
  - done.
  - by apply world_ok_motion.
  - by apply world_ok_dispatch.
Qed.

Lemma reachable_world_ok (sim : EnvironmentSimulator) :
  reachable sim -> world_ok sim.
Proof.
  induction 1 as [now|sim sim' _ IH Hstep].
  - unfold world_ok. cbn. by repeat split.
  - by eapply world_ok_step.
Qed.

(** X10: In the running system, where no list holds an object twice, the
    tick of the dispatcher, whether it returns or raises, keeps the clock
    and the number of drivers and packages; a package is left as it was
    or, PENDING with no driver before, marked as assigned to a driver that
    was IDLE; an agent is left as it was or, IDLE before, sent along its
    own position, the pickup and the dropoff of a package that was PENDING
    and is now assigned to this driver. *)
Theorem dispatch_frame (sim : EnvironmentSimulator) :
  reachable sim ->
  let sim' := (dispatch sim).1 in
  let pkgs := simulator.packages sim in
  simulator.current_time sim' = simulator.current_time sim
  /\ simulator._tick_seconds sim' = simulator._tick_seconds sim
  /\ Forall2 (assigned_step (simulator.drivers sim))
       pkgs (simulator.packages sim')
  /\ Forall2 (fun p p' => p' = p \/ package.assigned_to p = None)
       pkgs (simulator.packages sim')
  /\ Forall2 (dispatched (seq 0 (length pkgs)) pkgs (simulator.packages sim'))
       (simulator.drivers sim) (simulator.drivers sim').
Proof.
  intros (Hpk & _)%reachable_world_ok sim' pkgs. subst sim' pkgs.
  destruct (dispatch_steps haversine_distance_m osrm_route sim)
    as (Hclock & Hsec & Hstep & Hag).
  split; [done|]. split; [done|]. split; [done|]. split; [|done].
  apply Forall2_same_length_lookup_2; [by eapply Forall2_length|].
  intros i p p' Hp Hp'.
  destruct (Forall2_lookup_lr _ _ _ _ _ _ Hstep Hp Hp') as [->|[Hpend _]];
    [by left|right].
  destruct (Forall_lookup_1 _ _ _ _ Hpk Hp) as [[_ Hnone]|[Hs _]];
    [done|congruence].
Qed.

(** X11: No double assignment in the running system, where no list holds
    an object twice: the tick of the dispatcher takes as many drivers out
    of IDLE as packages out of PENDING; when it returns without an
    exception that number is the smaller of the two counts, so no IDLE
    driver is left while a package is PENDING. *)
Theorem dispatch_balance (sim : EnvironmentSimulator) :
  reachable sim ->
  let sim' := (dispatch sim).1 in
  let idle := n_idle (simulator.drivers sim) in
  let pending := n_pending (simulator.packages sim) in
  n_idle (simulator.drivers sim') + pending
  = idle + n_pending (simulator.packages sim')
  /\ ((dispatch sim).2 = None ->
      n_idle (simulator.drivers sim') = idle - min idle pending
      /\ n_pending (simulator.packages sim') = pending - min idle pending).
Proof.
  intros _. exact (dispatch_counts haversine_distance_m osrm_route sim).
Qed.

(** X14: In the running system a package is PENDING with no driver or ASSIGNED
    to a driver of the fleet.  No tick moves a package to IN_TRANSIT or
    DELIVERED, and [assigned_to] is set exactly when the status is past
    PENDING. *)
Theorem running_packages_pending_or_assigned (sim : EnvironmentSimulator)
    (p : Package) :
  reachable sim ->
  p ∈ simulator.packages sim ->
  ((package.status p = package.PENDING /\ package.assigned_to p = None)
   \/ (package.status p = package.ASSIGNED
       /\ exists a, a ∈ simulator.drivers sim
                    /\ package.assigned_to p
                       = Some (driver.id (driver_agent.driver a))))
  /\ package.status p <> package.IN_TRANSIT
  /\ package.status p <> package.DELIVERED
  /\ (is_Some (package.assigned_to p)
      <-> package.is_assigned_status (package.status p)).
Proof.
  intros (Hpk & _)%reachable_world_ok Hp.
  pose proof (proj1 (Forall_forall _ _) Hpk p Hp) as Hok.
  destruct Hok as [[Hs Hto]|(Hs & id & Hto & Hid)].
  - split; [by left|]. rewrite Hs, Hto. split; [done|]. split; [done|].
    split; [by intros [? ?]|]. by intros [?|[?|?]].
  - split.
    + right. split; [done|]. unfold driver_ids in Hid.
      apply list_elem_of_In, in_map_iff in Hid as (a & <- & Ha).
      exists a. split; [by apply list_elem_of_In|done].
    + rewrite Hs, Hto. split; [done|]. split; [done|].
      split; [by left|by eauto].
Qed.

(** X15: In the running system every package an agent holds in [_packages] is
    a package of the simulator that is ASSIGNED to that agent's driver. *)
Theorem agents_hold_assigned_packages (sim : EnvironmentSimulator)
    (a : DriverAgent) (r : package_ref) :
  reachable sim ->
  a ∈ simulator.drivers sim ->
  r ∈ driver_agent._packages a ->
  exists p,
    simulator.packages sim !! r = Some p
    /\ package.status p = package.ASSIGNED
    /\ package.assigned_to p = Some (driver.id (driver_agent.driver a)).
Proof.
  intros (_ & _ & Hheld)%reachable_world_ok Ha Hr.
  by apply (proj1 (Forall_forall _ _) Hheld a Ha r).
Qed.

(** X16: In the running system the dispatcher never overwrites a route in
    progress: an agent its tick changes was IDLE with no waypoint left, and
    gets a route of three waypoints that starts at its own position. *)
Theorem dispatcher_never_reroutes (sim : EnvironmentSimulator) (i : nat)
    (a a' : DriverAgent) :
  reachable sim ->
  simulator.drivers sim !! i = Some a ->
  simulator.drivers (dispatch sim).1 !! i = Some a' ->
  a' <> a ->
  driver.status (driver_agent.driver a) = driver.IDLE
  /\ length (driver_agent.route_list a) <= driver_agent._cursor a
  /\ driver.status (driver_agent.driver a') = driver.EN_ROUTE
  /\ driver_agent._cursor a' = 0
  /\ exists pickup dropoff,
       driver_agent._route a'
       = Some [driver.location (driver_agent.driver a); pickup; dropoff].
Proof.
  intros (_ & Hcons & _)%reachable_world_ok Ha Ha' Hne.
  destruct (dispatch_steps haversine_distance_m osrm_route sim)
    as (_ & _ & _ & Hag).
  destruct (Forall2_lookup_l _ _ _ _ _ Hag Ha) as (a2 & Ha2 & Hstep).
  assert (a2 = a') as -> by congruence.
  destruct Hstep as [->|(Hidle & r & p & _ & _ & _ & -> & _)]; [done|].
  pose proof (proj1 (Forall_lookup _ _) Hcons i a Ha) as Hc.
  split; [done|]. split.
  - unfold driver_agent.consistent, driver_agent.route_list in *.
    destruct (driver_agent._route a) as [route|]; cbn.
    + destruct Hc as (_ & _ & [Hs|[_ ->]]); [congruence|done].
    + lia.
  - cbn. split; [done|]. split; [done|]. eauto.
Qed.

End FleetInvariant.

(** ** RouteOptimizer: the greedy construction *)

Section GreedyFacts.

Import route_optimizer.

Lemma min_from_in (key : nat -> result float) (rest : list nat) :
  forall best k_best x,
    min_from key best k_best rest = Ok x -> x = best \/ x ∈ rest.
Proof.
  induction rest as [|y rest IH]; intros best k_best x; cbn.
  { intros [= ->]. by left. }
  destruct (key y) as [k|]; cbn; [|done].
  destruct (PrimFloat.ltb k k_best); intros [->|Hx]%IH.
  - right. by left.
  - right. by right.
  - by left.
  - right. by right.
Qed.

Lemma py_min_in (key : nat -> result float) (xs : list nat) (x : nat) :
  py_min key xs = Ok x -> x ∈ xs.
Proof.
  destruct xs as [|y rest]; cbn; [done|].
  destruct (key y) as [k|]; cbn; [|done].
  intros [->|Hx]%min_from_in; [by left|by right].
Qed.

Lemma min_from_returns (key : nat -> result float) (rest : list nat) :
  forall best k_best,
    (forall x, x ∈ rest -> returns (key x)) ->
    returns (min_from key best k_best rest).
Proof.
  induction rest as [|y rest IH]; intros best k_best Hkeys; cbn; [done|].
  pose proof (Hkeys y ltac:(by left)) as Hy.
  destruct (key y) as [k|]; cbn; [|done].
  destruct (PrimFloat.ltb k k_best); apply IH; intros x Hx; apply Hkeys;
    by right.
Qed.

Lemma py_min_returns (key : nat -> result float) (xs : list nat) :
  xs <> [] -> (forall x, x ∈ xs -> returns (key x)) ->
  returns (py_min key xs).
Proof.
  destruct xs as [|y rest]; [done|]. intros _ Hkeys. cbn.
  pose proof (Hkeys y ltac:(by left)) as Hy.
  destruct (key y) as [k|]; cbn; [|done].
  apply min_from_returns. intros x Hx. apply Hkeys. by right.
Qed.

(** [discard] of a member takes exactly that member out. *)
Lemma discard_perm (x : nat) (l : list nat) :
  NoDup l -> x ∈ l -> x :: filter (fun y => y <> x) l ≡ₚ l.
Proof.
  induction 1 as [|y l Hy Hnd IH]; [by intros ?%elem_of_nil|].
  intros [->|Hx]%elem_of_cons.
  - rewrite filter_cons_False by (by intros []).
    f_equal. apply Permutation_skip.
    rewrite (filter_ext_in _ (fun _ => True)).
    + clear. induction l as [|z l IH]; [done|].
      by rewrite filter_cons_True, IH.
    + intros z Hz. split; [done|]. intros _ ->. done.
  - rewrite filter_cons_True by (by intros ->).
    rewrite Permutation_swap. by rewrite IH.
Qed.

Section Loops.

Variables (mat : matrix) (cap : Z).

Lemma fill_step (fuel : nat) (cur : Z) (route : list Z)
    (unvisited : list nat) :
  unvisited <> [] ->
  fill (S fuel) mat cap cur route unvisited
  = match py_min (key mat cur) unvisited with
    | Raise e => Some (Raise e)
    | Ok next_node =>
        if decide (cap < Z.of_nat (length (route ++ [Z.of_nat next_node])))%Z
        then Some (Ok (route ++ [Z.of_nat next_node],
                       filter (fun x => x <> next_node) unvisited))
        else fill fuel mat cap (Z.of_nat next_node)
               (route ++ [Z.of_nat next_node])
               (filter (fun x => x <> next_node) unvisited)
    end.
Proof. by destruct unvisited. Qed.

(** The loop of one vehicle ends, and what it returns extends the route
    by nodes it took out of [unvisited], each once; it stops because no
    node is left or because the route has passed [cap]. *)
Lemma fill_spec (fuel : nat) :
  forall (cur : Z) (route : list Z) (unvisited : list nat),
    length unvisited <= fuel -> NoDup unvisited ->
    exists r,
      fill fuel mat cap cur route unvisited = Some r
      /\ forall route' unvisited', r = Ok (route', unvisited') ->
           exists added,
             route' = route ++ (Z.of_nat <$> added)
             /\ added ++ unvisited' ≡ₚ unvisited
             /\ (unvisited' = [] \/ (cap < Z.of_nat (length route'))%Z)
             /\ ((Z.of_nat (length route) <= cap)%Z ->
                 (Z.of_nat (length route') <= cap + 1)%Z).
Proof.
  induction fuel as [|fuel IH]; intros cur route unvisited Hfuel Hnd.
  { destruct unvisited; [|cbn in Hfuel; lia]. eexists. split; [done|].
    intros ? ? [= <- <-]. exists []. rewrite app_nil_r.
    split; [done|]. split; [done|]. split; [by left|lia]. }
  destruct (decide (unvisited = [])) as [->|Hne].
  { eexists. split; [done|]. intros ? ? [= <- <-]. exists [].
    rewrite app_nil_r. split; [done|]. split; [done|]. split; [by left|lia]. }
  rewrite fill_step by done.
  destruct (py_min (key mat cur) unvisited) as [next|e] eqn:Hmin.
  2:{ eexists. split; [done|]. intros ? ? [=]. }
  apply py_min_in in Hmin.
  pose proof (discard_perm next unvisited Hnd Hmin) as Hperm.
  set (unvisited' := filter (fun x => x <> next) unvisited) in *.
  assert (Hlen : S (length unvisited') = length unvisited).
  { by rewrite <- Hperm. }
  case_decide as Hcap.
  - eexists. split; [done|]. intros ? ? [= <- <-]. exists [next].
    split; [done|]. split; [done|]. split; [by right|].
    rewrite length_app in *. cbn in *. lia.
  - destruct (IH (Z.of_nat next) (route ++ [Z.of_nat next]) unvisited')
      as (r & Hr & Hspec); [lia|by apply NoDup_filter|].
    exists r. split; [done|]. intros route' unvisited'' ->.
    destruct (Hspec _ _ eq_refl) as (added & -> & Hp & Hstop & Hbound).
    exists (next :: added). split; [by rewrite <- app_assoc|].
    split; [cbn; by rewrite Hp|]. split; [done|]. intros _. apply Hbound.
    lia.
Qed.

(** With every key it asks for defined, the loop returns. *)
Lemma fill_returns (fuel : nat) :
  forall (cur : Z) (route : list Z) (unvisited : list nat),
    length unvisited <= fuel -> NoDup unvisited ->
    (forall cur' x,
       cur' = cur \/ (exists c, c ∈ unvisited /\ cur' = Z.of_nat c) ->
       x ∈ unvisited -> returns (key mat cur' x)) ->
    exists route' unvisited',
      fill fuel mat cap cur route unvisited = Some (Ok (route', unvisited')).
Proof.
  induction fuel as [|fuel IH]; intros cur route unvisited Hfuel Hnd Hkeys.
  { destruct unvisited; [|cbn in Hfuel; lia]. by eexists _, _. }
  destruct (decide (unvisited = [])) as [->|Hne]; [by eexists _, _|].
  rewrite fill_step by done.
  assert (Hret : returns (py_min (key mat cur) unvisited)).
  { apply py_min_returns; [done|]. intros x Hx. apply Hkeys; auto. }
  destruct (py_min (key mat cur) unvisited) as [next|e] eqn:Hmin; [|done].
  apply py_min_in in Hmin.
  pose proof (discard_perm next unvisited Hnd Hmin) as Hperm.
  set (unvisited' := filter (fun x => x <> next) unvisited) in *.
  assert (Hlen : S (length unvisited') = length unvisited).
  { by rewrite <- Hperm. }
  case_decide as Hcap; [by eexists _, _|].
  apply IH; [lia|by apply NoDup_filter|].
  intros cur' x Hcur Hx.
  assert (Hsub : forall y, y ∈ unvisited' -> y ∈ unvisited).
  { intros y Hy. rewrite <- Hperm. by right. }
  apply Hkeys; [|by apply Hsub]. right.
  destruct Hcur as [->|(c & Hc & ->)]; eauto.
Qed.

End Loops.

Section Vehicles.

Variables (mat : matrix) (cap depot : Z).

(** The loop over the vehicles ends; each route starts at the depot and
    is at most [cap + 1] long, and the nodes the routes visit, with the
    nodes left over, are the nodes of [unvisited], each once. *)
Lemma vehicles_spec (count : nat) :
  forall unvisited : list nat,
    (2 <= cap)%Z -> NoDup unvisited ->
    exists r,
      vehicles count mat cap depot unvisited = Some r
      /\ forall rs, r = Ok rs ->
           length rs = count
           /\ Forall (fun route =>
                        head route = Some depot
                        /\ (Z.of_nat (length route) <= cap + 1)%Z) rs
           /\ exists left,
                visited rs ++ (Z.of_nat <$> left) ≡ₚ Z.of_nat <$> unvisited
                /\ (left = []
                    \/ (Z.of_nat count * cap
                        <= Z.of_nat (length (visited rs)))%Z).
Proof.
  induction count as [|count IH]; intros unvisited Hcap Hnd.
  { eexists. split; [done|]. intros rs [= <-]. split; [done|].
    split; [done|]. exists unvisited. split; [done|]. right. cbn. lia. }
  cbn [vehicles].
  destruct (fill_spec mat cap (length unvisited) depot [depot] unvisited)
    as (r1 & -> & Hfill); [done|done|].
  destruct r1 as [[route unvisited1]|e].
  2:{ eexists. split; [done|]. intros ? [=]. }
  destruct (Hfill _ _ eq_refl) as (added & -> & Hperm & Hstop & Hbound).
  assert (Hnd1 : NoDup unvisited1).
  { rewrite <- Hperm in Hnd. by apply NoDup_app in Hnd as (_ & _ & ?). }
  destruct (IH unvisited1 Hcap Hnd1) as (r2 & -> & Hrest).
  destruct r2 as [rest|e].
  2:{ eexists. split; [done|]. intros ? [=]. }
  eexists. split; [done|]. intros rs [= <-].
  destruct (Hrest _ eq_refl) as (Hlen & Hall & left & Hleft & Hcount).
  split; [cbn; by rewrite Hlen|]. split.
  { constructor; [|done]. split; [done|]. apply Hbound. cbn. lia. }
  exists left. unfold visited in *. cbn [fmap list_fmap concat tail app].
  split.
  - rewrite <- app_assoc, Hleft, <- fmap_app. by rewrite Hperm.
  - destruct Hstop as [->|Hpast].
    + left. rewrite fmap_nil in Hleft.
      apply Permutation_nil_r in Hleft. apply app_eq_nil in Hleft as [_ Hl].
      by apply fmap_nil_inv in Hl.
    + destruct Hcount as [->|Hcount]; [by left|]. right.
      rewrite length_app, length_fmap in *. cbn in Hpast. lia.
Qed.

Lemma vehicles_returns (count : nat) :
  forall unvisited : list nat,
    NoDup unvisited ->
    (forall cur x,
       cur = depot \/ (exists c, c ∈ unvisited /\ cur = Z.of_nat c) ->
       x ∈ unvisited -> returns (key mat cur x)) ->
    exists rs, vehicles count mat cap depot unvisited = Some (Ok rs).
Proof.
  induction count as [|count IH]; intros unvisited Hnd Hkeys; [by eexists|].
  cbn [vehicles].
  destruct (fill_returns mat cap (length unvisited) depot [depot] unvisited)
    as (route & unvisited1 & Hfill); [done|done|done|].
  destruct (fill_spec mat cap (length unvisited) depot [depot] unvisited)
    as (r1 & Hfill' & Hspec); [done|done|].
  rewrite Hfill in Hfill'. injection Hfill' as <-.
  destruct (Hspec _ _ eq_refl) as (added & _ & Hperm & _).
  rewrite Hfill.
  assert (Hsub : forall y, y ∈ unvisited1 -> y ∈ unvisited).
  { intros y Hy. rewrite <- Hperm. apply elem_of_app. by right. }
  destruct (IH unvisited1) as (rest & ->).
  - rewrite <- Hperm in Hnd. by apply NoDup_app in Hnd as (_ & _ & ?).
  - intros cur x Hcur Hx. apply Hkeys; [|by apply Hsub].
    destruct Hcur as [->|(c & Hc & ->)]; eauto.
  - by eexists.
Qed.

End Vehicles.

Lemma cap_at_least_two (n : nat) (vehicle_count : Z) :
  (2 <= cap n vehicle_count)%Z.
Proof. unfold cap. lia. Qed.

(** The vehicles together have room for more than [n] nodes. *)
Lemma cap_covers (n : nat) (vehicle_count : Z) :
  (1 <= vehicle_count)%Z ->
  (Z.of_nat n < vehicle_count * cap n vehicle_count)%Z.
Proof.
  intros Hv. unfold cap.
  pose proof (Z.div_mod (Z.of_nat n) vehicle_count ltac:(lia)) as Hdm.
  pose proof (Z.mod_pos_bound (Z.of_nat n) vehicle_count ltac:(lia)) as Hm.
  nia.
Qed.

Lemma start_unvisited_spec (n : nat) (depot : Z) (x : nat) :
  x ∈ start_unvisited n depot <-> x < n /\ Z.of_nat x <> depot.
Proof.
  unfold start_unvisited. rewrite list_elem_of_filter, elem_of_seq. lia.
Qed.

Lemma start_unvisited_NoDup (n : nat) (depot : Z) :
  NoDup (start_unvisited n depot).
Proof. apply NoDup_filter, NoDup_seq. Qed.

(** A key of a well-formed matrix, from the depot or a node to a node. *)
Lemma key_returns (mat : matrix) (depot cur : Z) (x : nat) :
  well_formed mat depot ->
  cur = depot \/ (exists c, c < length mat /\ cur = Z.of_nat c) ->
  x < length mat ->
  returns (key mat cur x).
Proof.
  intros [Hrows Hdepot] Hcur Hx. unfold key, getitem_int, getitem.
  assert (Hrow : forall i, i < length mat ->
            exists row, mat !! i = Some row /\ length mat <= length row).
  { intros i Hi. destruct (lookup_lt_is_Some_2 mat i Hi) as [row Hr].
    exists row. split; [done|]. by eapply (Forall_lookup_1 _ _ _ _ Hrows). }
  assert (Hin : (- Z.of_nat (length mat) <= cur < Z.of_nat (length mat))%Z).
  { destruct Hcur as [->|(c & Hc & ->)]; lia. }
  case_decide.
  - destruct (Hrow (Z.to_nat cur)) as (row & -> & Hlen); [lia|]. cbn.
    by destruct (lookup_lt_is_Some_2 row x ltac:(lia)) as [v ->].
  - rewrite decide_True by lia.
    destruct (Hrow (Z.to_nat (Z.of_nat (length mat) + cur)))
      as (row & -> & Hlen); [lia|]. cbn.
    by destruct (lookup_lt_is_Some_2 row x ltac:(lia)) as [v ->].
Qed.

(** What [_solve_greedy] returns, when it returns routes. *)
Lemma greedy_spec (mat : matrix) (vehicle_count depot : Z) (rs : routes) :
  _solve_greedy mat vehicle_count depot = Some (Ok rs) ->
  length rs = Z.to_nat vehicle_count
  /\ Forall (fun route =>
               head route = Some depot
               /\ (Z.of_nat (length route)
                   <= cap (length mat) vehicle_count + 1)%Z) rs
  /\ exists left,
       visited rs ++ (Z.of_nat <$> left)
       ≡ₚ Z.of_nat <$> start_unvisited (length mat) depot
       /\ ((1 <= vehicle_count)%Z -> left = []).
Proof.
  unfold _solve_greedy. intros Hrun.
  destruct (vehicles_spec mat (cap (length mat) vehicle_count) depot
              (Z.to_nat vehicle_count) (start_unvisited (length mat) depot)
              (cap_at_least_two _ _) (start_unvisited_NoDup _ _))
    as (r & Hr & Hspec).
  rewrite Hrun in Hr. injection Hr as <-.
  destruct (Hspec _ eq_refl) as (Hlen & Hall & left & Hperm & Hcount).
  split; [done|]. split; [done|]. exists left. split; [done|].
  intros Hv. destruct Hcount as [->|Hcount]; [done|]. exfalso.
  pose proof (cap_covers (length mat) vehicle_count Hv) as Hroom.
  apply Permutation_length in Hperm.
  rewrite length_app, !length_fmap in Hperm.
  assert (length (start_unvisited (length mat) depot) <= length mat).
  { unfold start_unvisited.
    etrans; [apply length_filter|]. by rewrite length_seq. }
  lia.
Qed.

(** X20: The greedy solver returns one route per vehicle, none for a count of
    zero or below; every route starts at the depot and has at most
    [max(2, n // vehicle_count + 1) + 1] entries. *)
Theorem greedy_routes_shape (mat : matrix) (vehicle_count depot : Z)
    (rs : routes) :
  _solve_greedy mat vehicle_count depot = Some (Ok rs) ->
  length rs = Z.to_nat vehicle_count
  /\ Forall (fun route =>
               head route = Some depot
               /\ (Z.of_nat (length route)
                   <= Z.max 2 (Z.of_nat (length mat) / vehicle_count + 1) + 1)%Z)
            rs.
Proof. intros (Hlen & Hall & _)%greedy_spec. done. Qed.

(** X21: The greedy solver visits no node twice, over all its routes, and
    never visits the depot after a start; with at least one vehicle every
    other node of the matrix is visited, exactly once. *)
Theorem greedy_routes_partition (mat : matrix) (vehicle_count depot : Z)
    (rs : routes) :
  _solve_greedy mat vehicle_count depot = Some (Ok rs) ->
  NoDup (visited rs)
  /\ (forall x, x ∈ visited rs ->
        (0 <= x < Z.of_nat (length mat))%Z /\ x <> depot)
  /\ ((1 <= vehicle_count)%Z ->
      forall x : nat,
        x < length mat -> Z.of_nat x <> depot -> Z.of_nat x ∈ visited rs).
Proof.
  intros (_ & _ & left & Hperm & Hleft)%greedy_spec.
  assert (Hnd : NoDup (Z.of_nat <$> start_unvisited (length mat) depot)).
  { apply (NoDup_fmap_2 _), start_unvisited_NoDup. }
  split; [|split].
  - rewrite <- Hperm in Hnd. by apply NoDup_app in Hnd as (? & _).
  - intros x Hx.
    assert (Hx' : x ∈ Z.of_nat <$> start_unvisited (length mat) depot).
    { rewrite <- Hperm. apply elem_of_app. by left. }
    apply list_elem_of_fmap in Hx' as (y & -> & Hy).
    apply start_unvisited_spec in Hy. lia.
  - intros Hv x Hx Hne. rewrite (Hleft Hv), fmap_nil, app_nil_r in Hperm.
    rewrite Hperm. apply list_elem_of_fmap_2.
    by apply start_unvisited_spec.
Qed.

(** X18: On a matrix whose rows have an entry for every node, with the depot
    an index of the matrix, the greedy solver ends and returns routes: no
    lookup fails and [min] is never asked for the least of nothing. *)
Theorem greedy_returns (mat : matrix) (vehicle_count depot : Z) :
  well_formed mat depot ->
  exists rs, _solve_greedy mat vehicle_count depot = Some (Ok rs).
Proof.
  intros Hwf. unfold _solve_greedy. apply vehicles_returns.
  - apply start_unvisited_NoDup.
  - intros cur x Hcur [Hx _]%start_unvisited_spec.
    apply (key_returns mat depot); [done| |done].
    destruct Hcur as [->|(c & [Hc _]%start_unvisited_spec & ->)]; eauto.
Qed.

(** X17: The loops of the greedy solver end on every input: it returns routes
    or raises. *)
Theorem greedy_terminates (mat : matrix) (vehicle_count depot : Z) :
  is_Some (_solve_greedy mat vehicle_count depot).
Proof.
  unfold _solve_greedy.
  destruct (vehicles_spec mat (cap (length mat) vehicle_count) depot
              (Z.to_nat vehicle_count) (start_unvisited (length mat) depot)
              (cap_at_least_two _ _) (start_unvisited_NoDup _ _))
    as (r & -> & _).
  by eexists.
Qed.

(** X19: A depot that is no index of a non-empty matrix makes the greedy
    solver raise [IndexError] at its first lookup, when a vehicle exists. *)
Theorem greedy_depot_out_of_range (mat : matrix) (vehicle_count depot : Z) :
  mat <> [] ->
  (1 <= vehicle_count)%Z ->
  (depot < - Z.of_nat (length mat) \/ Z.of_nat (length mat) <= depot)%Z ->
  _solve_greedy mat vehicle_count depot = Some (Raise IndexError).
Proof.
  intros Hne Hv Hout. unfold _solve_greedy.
  destruct (Z.to_nat vehicle_count) as [|count] eqn:Hc; [lia|].
  assert (Hall : start_unvisited (length mat) depot = seq 0 (length mat)).
  { unfold start_unvisited. rewrite (filter_ext_in _ (fun _ => True)).
    - generalize (seq 0 (length mat)). intros l.
      induction l as [|z l IH]; [done|]. by rewrite filter_cons_True, IH.
    - intros x [_ Hx]%elem_of_seq. split; [done|]. lia. }
  rewrite Hall. destruct mat as [|row mat']; [done|].
  cbn [vehicles length seq]. cbn [fill py_min].
  assert (Hkey : key (row :: mat') depot 0 = Raise IndexError).
  { unfold key, getitem_int, getitem. case_decide.
    - rewrite lookup_ge_None_2; [done|]. cbn in *. lia.
    - rewrite decide_False; [done|]. cbn in *. lia. }
  by rewrite Hkey.
Qed.


End GreedyFacts.

(** ** The order of floats *)

Section FloatOrder.

Lemma SFltb_rank (x y : spec_float) :
  x <> S754_nan -> y <> S754_nan ->
  SFltb x y = true <-> lex_lt (sf_rank x) (sf_rank y).
Proof.
  intros Hx Hy. unfold SFltb, lex_lt.
  destruct x as [sx|sx| |sx mx ex], y as [sy|sy| |sy my ey]; try done;
    try destruct sx; try destruct sy; cbn; try (split; [done|lia]);
    try (split; [lia|done]).
  - change (PosDef.Pos.compare_cont Eq mx my) with (Pos.compare mx my).
    destruct (Z.compare_spec ex ey); cbn;
      try destruct (Pos.compare_spec mx my); cbn; split; try done; lia.
  - change (PosDef.Pos.compare_cont Eq mx my) with (Pos.compare mx my).
    destruct (Z.compare_spec ex ey); cbn;
      try destruct (Pos.compare_spec mx my); cbn; split; try done; lia.
Qed.

Lemma float_is_nan_spec (x : float) :
  float_is_nan x = false <-> Prim2SF x <> S754_nan.
Proof.
  unfold float_is_nan. rewrite negb_false_iff, FloatAxioms.eqb_spec.
  unfold SFeqb.
  destruct (Prim2SF x) as [s|s| |s m e]; cbn; try destruct s; cbn;
    rewrite ?Z.compare_refl, ?Pos.compare_cont_refl; cbn; split; done.
Qed.

Lemma float_ltb_not_nan (x y : float) :
  PrimFloat.ltb x y = true -> float_is_nan x = false /\ float_is_nan y = false.
Proof.
  rewrite FloatAxioms.ltb_spec, !float_is_nan_spec. unfold SFltb.
  destruct (Prim2SF x), (Prim2SF y); done.
Qed.

(** With [y] no NaN, [x < z] and not [x < y] give [y < z]. *)
Lemma float_ltb_neg_trans (x y z : float) :
  float_is_nan y = false ->
  PrimFloat.ltb x z = true -> PrimFloat.ltb x y = false ->
  PrimFloat.ltb y z = true.
Proof.
  intros Hy Hxz Hxy.
  destruct (float_ltb_not_nan _ _ Hxz) as [Hx Hz].
  apply float_is_nan_spec in Hx, Hy, Hz.
  rewrite FloatAxioms.ltb_spec in *.
  apply not_true_iff_false in Hxy.
  rewrite SFltb_rank in * by done. unfold lex_lt in *. lia.
Qed.

Lemma float_ltb_irrefl (x : float) : PrimFloat.ltb x x = false.
Proof.
  destruct (PrimFloat.ltb x x) eqn:H; [|done].
  by rewrite (float_ltb_asym _ _ H) in H.
Qed.

Lemma float_ltb_trans (x y z : float) :
  PrimFloat.ltb x y = true -> PrimFloat.ltb y z = true ->
  PrimFloat.ltb x z = true.
Proof.
  intros Hxy Hyz. destruct (float_ltb_not_nan _ _ Hxy) as [Hx _].
  apply (float_ltb_neg_trans y x z Hx Hyz). by apply float_ltb_asym.
Qed.

End FloatOrder.

(** ** DispatcherAgent: the nearest package, for any number of packages *)

Section DispatcherNearest.

Import dispatcher.

(** The head of the sorted list stands in the list with strictly greater
    keys before it and no smaller key after it: the least key, the
    earliest of equals. *)
Lemma sort_keyed_head {A} (l : list (float * A)) :
  forall h t,
    Forall (fun x => float_is_nan (fst x) = false) l ->
    sort_keyed l = h :: t ->
    exists l1 l2,
      l = l1 ++ h :: l2
      /\ Forall (fun y => PrimFloat.ltb (fst h) (fst y) = true) l1
      /\ Forall (fun y => PrimFloat.ltb (fst y) (fst h) = false) l2.
Proof.
  induction l as [|x l IH]; intros h t Hnan Hsort; [done|].
  apply Forall_cons in Hnan as [Hx Hnan]. cbn in Hsort.
  destruct (sort_keyed l) as [|h' t'] eqn:Hs.
  { injection Hsort as <- <-.
    pose proof (sort_keyed_perm l) as Hp. rewrite Hs in Hp.
    apply Permutation_nil in Hp as ->. by exists [], []. }
  destruct (IH h' t' Hnan eq_refl) as (l1 & l2 & -> & Hbefore & Hafter).
  assert (Hh' : float_is_nan (fst h') = false).
  { apply Forall_app in Hnan as [_ Hn]. by apply Forall_cons in Hn as [? _]. }
  cbn in Hsort. destruct (PrimFloat.ltb (fst h') (fst x)) eqn:Hlt.
  - injection Hsort as <- <-. exists (x :: l1), l2.
    split; [done|]. split; [by constructor|done].
  - injection Hsort as <- <-. exists [], (l1 ++ h' :: l2).
    split; [done|]. split; [done|].
    apply Forall_app. split; [|constructor; [done|]].
    + eapply Forall_impl; [exact Hbefore|]. intros y Hy. cbn in Hy.
      destruct (PrimFloat.ltb (fst y) (fst x)) eqn:Hyx; [|done].
      by rewrite (float_ltb_trans _ _ _ Hy Hyx) in Hlt.
    + eapply Forall_impl; [exact Hafter|]. intros y Hy. cbn in Hy.
      destruct (PrimFloat.ltb (fst y) (fst x)) eqn:Hyx; [|done].
      by rewrite (float_ltb_neg_trans _ _ _ Hh' Hyx Hy) in Hlt.
Qed.

Variable haversine_distance_m : distance_fn.
Variable osrm_route : Location -> Location -> result routing_engine.RouteInfo.

Local Abbreviation choose := (dispatcher.choose haversine_distance_m osrm_route).
Local Abbreviation assign_loop :=
  (dispatcher.assign_loop haversine_distance_m osrm_route).
Local Abbreviation dispatch := (dispatcher._tick haversine_distance_m osrm_route).
Local Abbreviation pickup_distance :=
  (fleet.pickup_distance haversine_distance_m).

Lemma keyed_distances (here : Location) (pkgs : list Package)
    (pending : list package_ref) (keyed : list (float * package_ref)) :
  mapM (fun ref =>
          p ← getitem pkgs ref;
          k ← haversine_distance_m here (package.pickup p);
          mret (k, ref)) pending = Ok keyed ->
  Forall (fun kr => pickup_distance here pkgs kr.2 kr.1) keyed.
Proof.
  revert keyed. induction pending as [|r pending IH]; intros keyed.
  { by intros [= <-]. }
  cbn. destruct (getitem pkgs r) as [p|] eqn:Hg; cbn; [|done].
  assert (Hp : pkgs !! r = Some p).
  { unfold getitem in Hg. destruct (pkgs !! r); congruence. }
  destruct (haversine_distance_m here _) as [k|] eqn:Hk; cbn; [|done].
  destruct (mapM _ pending) as [keyed'|]; cbn; [|done].
  intros [= <-]. constructor; [by exists p|by apply IH].
Qed.

(** What [choose] takes is a nearest pending package, the first of the
    nearest ones, provided no distance is a NaN. *)
Lemma choose_nearest_any (here : Location) (pkgs : list Package)
    (pending pending' : list package_ref) (ref : package_ref) (pkg : Package) :
  (forall r d, r ∈ pending -> pickup_distance here pkgs r d ->
     float_is_nan d = false) ->
  choose here pkgs pending = Ok (ref, pkg, pending') ->
  exists l1 l2 d,
    pending = l1 ++ ref :: l2
    /\ pkgs !! ref = Some pkg
    /\ haversine_distance_m here (package.pickup pkg) = Ok d
    /\ (forall r d', r ∈ l1 -> pickup_distance here pkgs r d' ->
          PrimFloat.ltb d d' = true)
    /\ (forall r d', r ∈ l2 -> pickup_distance here pkgs r d' ->
          PrimFloat.ltb d' d = false).
Proof.
  intros Hnan. unfold dispatcher.choose, sort_by_distance.
  destruct (mapM _ pending) as [keyed|] eqn:Hkeyed; cbn; [|done].
  pose proof (keyed_distances _ _ _ _ Hkeyed) as Hdist.
  apply keyed_refs in Hkeyed as Hrefs.
  destruct (sort_keyed keyed) as [|[d r0] t] eqn:Hsort; cbn; [done|].
  unfold getitem. destruct (pkgs !! r0) as [p|] eqn:Hp; cbn; [|done].
  destruct (routing_engine.get_route _ _ here _); cbn; [|done].
  destruct (routing_engine.get_route _ _ (package.pickup p) _); cbn; [|done].
  intros [= <- <- <-].
  assert (Hok : Forall (fun x => float_is_nan x.1 = false) keyed).
  { apply Forall_forall. intros [k r] Hkr.
    pose proof (proj1 (Forall_forall _ _) Hdist _ Hkr) as Hd. cbn in *.
    apply (Hnan r k); [|done]. rewrite <- Hrefs.
    by apply (list_elem_of_fmap_2 snd _ (k, r)). }
  destruct (sort_keyed_head keyed _ _ Hok Hsort)
    as (k1 & k2 & -> & Hbefore & Hafter).
  assert (Hd : pickup_distance here pkgs r0 d).
  { apply Forall_app in Hdist as [_ Hd]. by apply Forall_cons in Hd as [? _]. }
  destruct Hd as (p' & Hp' & Hd). assert (p' = p) as -> by congruence.
  assert (Hsame : forall r d1 d2, pickup_distance here pkgs r d1 ->
                    pickup_distance here pkgs r d2 -> d1 = d2).
  { intros r d1 d2 (p1 & H1 & Hd1) (p2 & H2 & Hd2). congruence. }
  exists k1.*2, k2.*2, d. rewrite <- Hrefs, fmap_app. cbn.
  split; [done|]. split; [done|]. split; [done|].
  apply Forall_app in Hdist as [Hd1 Hd2]. apply Forall_cons in Hd2 as [_ Hd2].
  split.
  - intros r d' Hr Hrd. apply list_elem_of_fmap in Hr as ([k r'] & -> & Hkr).
    pose proof (proj1 (Forall_forall _ _) Hd1 _ Hkr) as Hk.
    pose proof (proj1 (Forall_forall _ _) Hbefore _ Hkr) as Hlt. cbn in *.
    by rewrite (Hsame _ _ _ Hrd Hk).
  - intros r d' Hr Hrd. apply list_elem_of_fmap in Hr as ([k r'] & -> & Hkr).
    pose proof (proj1 (Forall_forall _ _) Hd2 _ Hkr) as Hk.
    pose proof (proj1 (Forall_forall _ _) Hafter _ Hkr) as Hlt. cbn in *.
    by rewrite (Hsame _ _ _ Hrd Hk).
Qed.

(** X12: The first IDLE driver of the fleet gets a nearest PENDING package:
    when the tick of the dispatcher changes that driver, it sends it to a
    package [r] such that every PENDING package listed before [r] is
    strictly farther from the driver and none listed after [r] is nearer,
    provided no distance from the driver is a NaN. *)
Theorem dispatch_first_idle_gets_nearest (sim : EnvironmentSimulator)
    (before after : list DriverAgent) (a a' : DriverAgent) :
  let pkgs := simulator.packages sim in
  let here := driver.location (driver_agent.driver a) in
  let pending := filter (is_pending pkgs) (seq 0 (length pkgs)) in
  simulator.drivers sim = before ++ a :: after ->
  Forall busy before ->
  (forall r d, r ∈ pending -> pickup_distance here pkgs r d ->
     float_is_nan d = false) ->
  simulator.drivers (dispatch sim).1 !! length before = Some a' ->
  a' <> a ->
  exists l1 r l2 p d,
    pending = l1 ++ r :: l2
    /\ pkgs !! r = Some p
    /\ haversine_distance_m here (package.pickup p) = Ok d
    /\ a' = driver_agent.assign_route
              [here; package.pickup p; package.dropoff p] (Some [r]) a
    /\ (forall r' d', r' ∈ l1 -> pickup_distance here pkgs r' d' ->
          PrimFloat.ltb d d' = true)
    /\ (forall r' d', r' ∈ l2 -> pickup_distance here pkgs r' d' ->
          PrimFloat.ltb d' d = false).
Proof.
  intros pkgs here pending Hds Hbusy Hnan Ha' Hne.
  assert (Hat : forall rest, (before ++ rest) !! length before = head rest).
  { intros rest. rewrite lookup_app_r, Nat.sub_diag by lia. by destruct rest. }
  destruct (dispatch_cases haversine_distance_m osrm_route sim)
    as [[Hnoop _]|(agents' & pkgs' & e & Hloop & Hrun)].
  { rewrite Hnoop in Ha'. cbn in Ha'. rewrite Hds, Hat in Ha'. cbn in Ha'.
    congruence. }
  rewrite Hrun in Ha'. cbn in Ha'. fold pkgs pending in Hloop.
  rewrite Hds in Hloop.
  destruct (assign_loop (a :: after) pending pkgs) as [[rest' pkgs1] e1] eqn:Hrest.
  rewrite (assign_loop_skip _ _ _ _ _ _ _ _ _ Hbusy Hrest) in Hloop.
  injection Hloop as <- <- <-. rewrite Hat in Ha'.
  cbn [dispatcher.assign_loop] in Hrest.
  destruct (decide (driver.status (driver_agent.driver a) <> driver.IDLE)).
  { destruct (assign_loop after pending pkgs) as [[? ?] ?].
    injection Hrest as <- <- <-. cbn in Ha'. congruence. }
  destruct pending as [|r0 pending0] eqn:Hpending.
  { injection Hrest as <- <- <-. cbn in Ha'. congruence. }
  rewrite <- Hpending in *. fold here in Hrest.
  destruct (choose here pkgs pending) as [[[ref pkg] pending']|e0] eqn:Hchoose.
  2:{ injection Hrest as <- <- <-. cbn in Ha'. congruence. }
  destruct (assign_loop after pending' _) as [[rest'' pkgs''] e''].
  injection Hrest as <- <- <-. cbn in Ha'. injection Ha' as <-.
  destruct (choose_nearest_any here pkgs pending pending' ref pkg Hnan Hchoose)
    as (l1 & l2 & d & Hsplit & Hpkg & Hd & Hbefore & Hafter).
  exists l1, ref, l2, pkg, d. done.
Qed.

End DispatcherNearest.

(** ** Dispatch and motion together *)

Section AfterDispatch.

Import driver_agent.

Variable settings : Settings.
Variable haversine_distance_m : distance_fn.

Local Abbreviation tick := (driver_agent.tick settings haversine_distance_m).

(** X13: The route the dispatcher assigns starts with the driver's own
    position.  With the distance from a point to itself below the arrival
    threshold of 1.0, the first tick after an assignment only moves the
    cursor past that waypoint: the driver stays where it is, EN_ROUTE, with
    the pickup as its next waypoint. *)
Theorem first_tick_after_dispatch (a : DriverAgent) (pickup dropoff : Location)
    (packages : option (list package_ref)) (dt d : float) :
  let here := driver.location (driver a) in
  haversine_distance_m here here = Ok d ->
  PrimFloat.ltb d 1%float = true ->
  exists a1,
    tick dt (assign_route [here; pickup; dropoff] packages a) = Ok a1
    /\ driver.location (driver a1) = here
    /\ driver.status (driver a1) = driver.EN_ROUTE
    /\ _cursor a1 = 1
    /\ route_list a1 !! _cursor a1 = Some pickup.
Proof.
  intros here Hd Hlt. unfold driver_agent.tick, getitem. cbn.
  fold here. rewrite Hd. cbn. rewrite Hlt, orb_true_r.
  eexists. split; [reflexivity|]. by cbn.
Qed.

End AfterDispatch.

(** ** RouteOptimizer: every hop of the first route is a nearest one *)

Section GreedyNearest.

Import route_optimizer.

Lemma min_from_least (key : nat -> result float) (rest : list nat) :
  forall best k_best x,
    float_is_nan k_best = false ->
    (forall y ky, y ∈ rest -> key y = Ok ky -> float_is_nan ky = false) ->
    min_from key best k_best rest = Ok x ->
    exists kx,
      ((x = best /\ kx = k_best) \/ (x ∈ rest /\ key x = Ok kx))
      /\ PrimFloat.ltb k_best kx = false
      /\ forall y ky, y ∈ rest -> key y = Ok ky -> PrimFloat.ltb ky kx = false.
Proof.
  induction rest as [|z rest IH]; intros best k_best x Hb Hnan; cbn.
  { intros [= ->]. exists k_best. split; [by left|].
    split; [apply float_ltb_irrefl|]. by intros y ky ?%elem_of_nil. }
  destruct (key z) as [k|] eqn:Hz; cbn; [|done].
  assert (Hk : float_is_nan k = false) by (apply (Hnan z); [by left|done]).
  assert (Hrest : forall y ky, y ∈ rest -> key y = Ok ky ->
                    float_is_nan ky = false).
  { intros y ky Hy. apply Hnan. by right. }
  destruct (PrimFloat.ltb k k_best) eqn:Hlt; intros Hmin.
  - destruct (IH z k x Hk Hrest Hmin) as (kx & Hx & Hkx & Hall).
    exists kx. split; [|split].
    + right. destruct Hx as [[-> ->]|[Hx Hkey]]; [by split; [left|]|].
      split; [by right|done].
    + destruct (PrimFloat.ltb k_best kx) eqn:Hbx; [|done].
      by rewrite (float_ltb_trans _ _ _ Hlt Hbx) in Hkx.
    + intros y ky [->|Hy]%elem_of_cons Hky; [congruence|by eapply Hall].
  - destruct (IH best k_best x Hb Hrest Hmin) as (kx & Hx & Hkx & Hall).
    exists kx. split; [|split; [done|]].
    + destruct Hx as [[-> ->]|[Hx Hkey]]; [by left|].
      right. split; [by right|done].
    + intros y ky [->|Hy]%elem_of_cons Hky; [|by eapply Hall].
      assert (ky = k) as -> by congruence.
      destruct (PrimFloat.ltb k kx) eqn:Hkkx; [|done].
      by rewrite (float_ltb_neg_trans _ _ _ Hb Hkkx Hlt) in Hkx.
Qed.

(** [min] returns a member with a least key, when no key is a NaN. *)
Lemma py_min_least (key : nat -> result float) (xs : list nat) (x : nat) :
  (forall y ky, y ∈ xs -> key y = Ok ky -> float_is_nan ky = false) ->
  py_min key xs = Ok x ->
  exists kx,
    key x = Ok kx
    /\ forall y ky, y ∈ xs -> key y = Ok ky -> PrimFloat.ltb ky kx = false.
Proof.
  intros Hnan. destruct xs as [|z rest]; cbn; [done|].
  destruct (key z) as [k|] eqn:Hz; cbn; [|done]. intros Hmin.
  assert (Hk : float_is_nan k = false) by (apply (Hnan z); [by left|done]).
  destruct (min_from_least key rest z k x Hk) as (kx & Hx & Hkx & Hall);
    [|done|].
  { intros y ky Hy. apply Hnan. by right. }
  exists kx. split.
  - by destruct Hx as [[-> ->]|[_ ?]].
  - intros y ky [->|Hy]%elem_of_cons Hky; [congruence|by eapply Hall].
Qed.

Lemma last_after_head {A} (a d : A) (l : list A) :
  List.last (a :: l) d = List.last l a.
Proof.
  revert a d. induction l as [|z l IH]; intros a d; [done|].
  change (List.last (z :: l) d = List.last (z :: l) a).
  by rewrite !IH.
Qed.

Section Hops.

Variables (mat : matrix) (cap : Z).

Hypothesis no_nan :
  forall cur x k, key mat cur x = Ok k -> float_is_nan k = false.

(** Every node the loop of a vehicle adds is, seen from the node before
    it, no farther than any node that was unvisited then. *)
Lemma fill_hops (fuel : nat) :
  forall (cur : Z) (route : list Z) (unvisited : list nat)
         (route' : list Z) (unvisited' : list nat),
    length unvisited <= fuel -> NoDup unvisited ->
    fill fuel mat cap cur route unvisited = Some (Ok (route', unvisited')) ->
    exists added,
      route' = route ++ (Z.of_nat <$> added)
      /\ forall pre v post, added = pre ++ v :: post ->
           v ∈ unvisited
           /\ exists kv,
                key mat (List.last (Z.of_nat <$> pre) cur) v = Ok kv
                /\ forall y ky,
                     y ∈ unvisited -> y ∉ pre ->
                     key mat (List.last (Z.of_nat <$> pre) cur) y = Ok ky ->
                     PrimFloat.ltb ky kv = false.
Proof using no_nan.
  induction fuel as [|fuel IH];
    intros cur route unvisited route' unvisited' Hfuel Hnd Hrun.
  { destruct unvisited; [|cbn in Hfuel; lia]. injection Hrun as <- <-.
    exists []. rewrite app_nil_r. split; [done|].
    intros pre v post Hsplit. by destruct pre. }
  destruct (decide (unvisited = [])) as [->|Hne].
  { injection Hrun as <- <-. exists []. rewrite app_nil_r. split; [done|].
    intros pre v post Hsplit. by destruct pre. }
  rewrite fill_step in Hrun by done.
  destruct (py_min (key mat cur) unvisited) as [next|e] eqn:Hmin; [|done].
  pose proof (py_min_in _ _ _ Hmin) as Hin.
  destruct (py_min_least _ _ _ (fun y ky _ => no_nan cur y ky) Hmin)
    as (knext & Hknext & Hleast).
  pose proof (discard_perm next unvisited Hnd Hin) as Hperm.
  set (unvisited1 := filter (fun x => x <> next) unvisited) in *.
  assert (Hfirst : forall pre v post (rest : list nat),
            next :: rest = pre ++ v :: post -> pre = [] ->
            v ∈ unvisited
            /\ exists kv,
                 key mat (List.last (Z.of_nat <$> pre) cur) v = Ok kv
                 /\ forall y ky,
                      y ∈ unvisited -> y ∉ pre ->
                      key mat (List.last (Z.of_nat <$> pre) cur) y = Ok ky ->
                      PrimFloat.ltb ky kv = false).
  { intros pre v post rest Hsplit ->. injection Hsplit as <- _.
    split; [done|]. exists knext. split; [done|].
    intros y ky Hy _ Hky. by eapply Hleast. }
  case_decide as Hcap.
  - injection Hrun as <- <-. exists [next]. split; [done|].
    intros pre v post Hsplit. apply (Hfirst pre v post []); [done|].
    destruct pre as [|? [|? ?]]; [done|by destruct post|done].
  - assert (Hlen : S (length unvisited1) = length unvisited)
      by by rewrite <- Hperm.
    destruct (IH (Z.of_nat next) (route ++ [Z.of_nat next]) unvisited1
                route' unvisited')
      as (added & -> & Hhops); [lia|by apply NoDup_filter|exact Hrun|].
    exists (next :: added). split; [by rewrite <- app_assoc|].
    intros pre v post Hsplit. destruct pre as [|p0 pre].
    { by apply (Hfirst [] v post added). }
    injection Hsplit as <- ->.
    destruct (Hhops pre v post eq_refl) as (Hv & kv & Hkv & Hmin').
    assert (Hlast : List.last (Z.of_nat <$> next :: pre) cur
                    = List.last (Z.of_nat <$> pre) (Z.of_nat next)).
    { cbn [fmap list_fmap]. apply last_after_head. }
    rewrite Hlast. split.
    + apply list_elem_of_filter in Hv as [_ Hv]. done.
    + exists kv. split; [done|]. intros y ky Hy Hpre Hky.
      apply (Hmin' y ky); [|by intros ?; apply Hpre; right|done].
      apply list_elem_of_filter. split; [|done].
      intros ->. apply Hpre. by left.
Qed.

End Hops.

Lemma getitem_elem {A} (xs : list A) (i : nat) (x : A) :
  getitem xs i = Ok x -> x ∈ xs.
Proof.
  unfold getitem. destruct (xs !! i) eqn:Hi; [|done]. intros [= <-].
  by eapply list_elem_of_lookup_2.
Qed.

Lemma key_no_nan (mat : matrix) :
  Forall (Forall (fun k => float_is_nan k = false)) mat ->
  forall cur x k, key mat cur x = Ok k -> float_is_nan k = false.
Proof.
  intros Hmat cur x k. unfold key.
  destruct (getitem_int mat cur) as [row|] eqn:Hrow; cbn; [|done].
  intros Hk%getitem_elem.
  assert (Hin : row ∈ mat).
  { unfold getitem_int in Hrow. repeat case_decide; try done;
      by eapply getitem_elem. }
  pose proof (proj1 (Forall_forall _ _) Hmat row Hin) as Hr.
  by apply (proj1 (Forall_forall _ _) Hr k).
Qed.

(** X22: The first route of the greedy solver is a nearest-neighbour tour: each
    node on it is, seen from the node before it, no farther than any node
    not yet on the route, provided the matrix holds no NaN. *)
Theorem greedy_first_route_nearest (mat : matrix) (vehicle_count depot : Z)
    (route : list Z) (rs : routes) :
  Forall (Forall (fun k => float_is_nan k = false)) mat ->
  _solve_greedy mat vehicle_count depot = Some (Ok (route :: rs)) ->
  exists added,
    route = depot :: (Z.of_nat <$> added)
    /\ forall pre v post, added = pre ++ v :: post ->
         v < length mat
         /\ Z.of_nat v <> depot
         /\ exists kv,
              key mat (List.last (Z.of_nat <$> pre) depot) v = Ok kv
              /\ forall y ky,
                   y < length mat -> Z.of_nat y <> depot -> y ∉ pre ->
                   key mat (List.last (Z.of_nat <$> pre) depot) y = Ok ky ->
                   PrimFloat.ltb ky kv = false.
Proof.
  intros Hmat. pose proof (key_no_nan mat Hmat) as Hnan.
  unfold _solve_greedy.
  destruct (Z.to_nat vehicle_count) as [|count]; [done|]. cbn [vehicles].
  destruct (fill _ mat _ depot [depot] _) as [[[route1 unvisited1]|e]|] eqn:Hfill;
    [|done|done].
  destruct (vehicles count mat _ depot unvisited1) as [[rest|e]|]; [|done|done].
  intros [= <- <-].
  destruct (fill_hops mat _ Hnan _ _ _ _ _ _ (Nat.le_refl _)
              (start_unvisited_NoDup _ _) Hfill) as (added & -> & Hhops).
  exists added. split; [done|]. intros pre v post Hsplit.
  destruct (Hhops pre v post Hsplit) as (Hv & kv & Hkv & Hleast).
  apply start_unvisited_spec in Hv as [Hv Hvd].
  split; [done|]. split; [done|]. exists kv. split; [done|].
  intros y ky Hy Hyd Hpre. apply Hleast; [|done].
  by apply start_unvisited_spec.
Qed.

End GreedyNearest.

(** ** The further properties on sample inputs *)

Section Samples.

Local Abbreviation tick :=
  (driver_agent.tick default_settings demo.haversine_distance_m).
Local Abbreviation dispatch :=
  (dispatcher._tick demo.haversine_distance_m demo.osrm_route).
Local Abbreviation world_reachable :=
  (fleet.reachable default_settings demo.haversine_distance_m demo.osrm_route).

(** The greedy solver on three stops: one vehicle takes the nearest stop
    at each hop; with two vehicles the first route is cut after it passes
    the cap of two entries, and nothing is left for the second. *)
Example greedy_samples :
  route_optimizer._solve_greedy samples.durations 1 0
  = Some (Ok [[0; 2; 1]%Z])
  /\ route_optimizer._solve_greedy samples.durations 2 0
     = Some (Ok [[0; 2; 1]%Z; [0%Z]])
  /\ route_optimizer._solve_greedy samples.durations 0 0 = Some (Ok [])
  /\ route_optimizer._solve_greedy samples.durations 1 (-1)
     = Some (Ok [[-1; 2; 1; 0]%Z]).
Proof. vm_compute. by repeat split. Qed.

Lemma demo_world_reachable : world_reachable demo.world.
Proof.
  unfold demo.world, simulator.create_demo_orders.
  repeat (eapply fleet.reachable_step;
          [|first [apply fleet.step_add_package|apply fleet.step_add_driver]]).
  apply fleet.reachable_init.
Qed.

Lemma after_dispatch_reachable : world_reachable samples.after_dispatch.
Proof.
  eapply fleet.reachable_step; [apply demo_world_reachable|].
  apply fleet.step_dispatch.
Qed.

Lemma tick_changes_only_position_witness :
  exists a',
    tick 1%float samples.dispatched = Ok a'
    /\ driver_agent._route a' = driver_agent._route samples.dispatched
    /\ driver_agent._packages a' = [1].
Proof.
  destruct (tick_changes_only_position default_settings
              demo.haversine_distance_m 1%float samples.dispatched
              (driver_agent.arrive demo.home samples.dispatched))
    as (Hroute & Hpk & _).
  - vm_compute. reflexivity.
  - eexists. split; [vm_compute; reflexivity|]. by split.
Defined.

Lemma agent_leaves_model_route_unset_witness :
  driver_agent._route samples.dispatched
  = Some [demo.home; demo.pickup_2; demo.dropoff_2]
  /\ driver.route (driver_agent.driver samples.dispatched) = None
  /\ driver.assigned_packages (driver_agent.driver samples.dispatched) = [].
Proof.
  split; [reflexivity|].
  apply (agent_leaves_model_route_unset default_settings
           demo.haversine_distance_m (fun _ => True)).
  apply driver_agent.reachable_assign_route;
    [apply driver_agent.reachable_init|exact I].
Defined.

Lemma idle_agent_stays_witness :
  driver_agent.ticks default_settings demo.haversine_distance_m 1%float 5
    (demo.new_agent "d1" demo.home)
  = Ok (demo.new_agent "d1" demo.home).
Proof.
  apply idle_agent_stays; [reflexivity|cbn; lia].
Defined.

Lemma dispatch_noop_witness :
  dispatch samples.no_orders = (samples.no_orders, None).
Proof. apply dispatch_noop. right. reflexivity. Defined.

Lemma dispatch_frame_witness :
  simulator.current_time samples.after_dispatch
  = simulator.current_time demo.world
  /\ length (simulator.packages samples.after_dispatch) = 2
  /\ length (simulator.drivers samples.after_dispatch) = 1.
Proof.
  destruct (dispatch_frame default_settings demo.haversine_distance_m
              demo.osrm_route demo.world demo_world_reachable)
    as (Hclock & _ & Hpkgs & _ & Hagents).
  unfold samples.after_dispatch.
  split; [exact Hclock|]. split.
  - by rewrite <- (Forall2_length _ _ _ Hpkgs).
  - by rewrite <- (Forall2_length _ _ _ Hagents).
Defined.

Lemma dispatch_balance_witness :
  fleet.n_idle (simulator.drivers samples.after_dispatch) = 0
  /\ fleet.n_pending (simulator.packages samples.after_dispatch) = 1.
Proof.
  destruct (dispatch_balance default_settings demo.haversine_distance_m
              demo.osrm_route demo.world demo_world_reachable)
    as [_ Hmin].
  destruct Hmin as [Hidle Hpending]; [vm_compute; reflexivity|].
  unfold samples.after_dispatch.
  split; [rewrite Hidle|rewrite Hpending]; vm_compute; reflexivity.
Defined.

Lemma running_packages_witness :
  exists p,
    simulator.packages samples.after_dispatch !! 1 = Some p
    /\ package.status p = package.ASSIGNED
    /\ package.status p <> package.DELIVERED
    /\ is_Some (package.assigned_to p).
Proof.
  exists (package.mark_assigned "d1" demo.package_2).
  destruct (running_packages_pending_or_assigned default_settings
              demo.haversine_distance_m demo.osrm_route
              samples.after_dispatch
              (package.mark_assigned "d1" demo.package_2))
    as (_ & _ & Hnot & Hset).
  - apply after_dispatch_reachable.
  - apply (list_elem_of_lookup_2 _ 1). vm_compute. reflexivity.
  - split; [vm_compute; reflexivity|]. split; [reflexivity|].
    split; [exact Hnot|]. apply Hset. by left.
Defined.

Lemma agents_hold_assigned_packages_witness :
  exists p,
    simulator.packages samples.after_dispatch !! 1 = Some p
    /\ package.status p = package.ASSIGNED
    /\ package.assigned_to p = Some "d1".
Proof.
  apply (agents_hold_assigned_packages default_settings
           demo.haversine_distance_m demo.osrm_route
           samples.after_dispatch samples.dispatched 1).
  - apply after_dispatch_reachable.
  - apply (list_elem_of_lookup_2 _ 0). vm_compute. reflexivity.
  - cbn. by left.
Defined.

Lemma dispatcher_never_reroutes_witness :
  driver.status (driver_agent.driver (demo.new_agent "d1" demo.home))
  = driver.IDLE
  /\ driver_agent._cursor samples.dispatched = 0.
Proof.
  destruct (dispatcher_never_reroutes default_settings
              demo.haversine_distance_m demo.osrm_route demo.world 0
              (demo.new_agent "d1" demo.home) samples.dispatched)
    as (Hidle & _ & _ & Hcursor & _).
  - apply demo_world_reachable.
  - reflexivity.
  - vm_compute. reflexivity.
  - discriminate.
  - by split.
Defined.

Lemma dispatch_first_idle_gets_nearest_witness :
  exists l1 r l2,
    [0; 1] = l1 ++ r :: l2
    /\ driver_agent._packages samples.dispatched = [r].
Proof.
  destruct (dispatch_first_idle_gets_nearest demo.haversine_distance_m
              demo.osrm_route demo.world [] []
              (demo.new_agent "d1" demo.home) samples.dispatched)
    as (l1 & r & l2 & p & d & Hsplit & _ & _ & Ha & _).
  - reflexivity.
  - apply Forall_nil_2.
  - intros r d Hr (p & Hp & Hd). vm_compute in Hr.
    apply elem_of_cons in Hr as [->|Hr].
    + vm_compute in Hp. injection Hp as <-. vm_compute in Hd.
      injection Hd as <-. reflexivity.
    + apply list_elem_of_singleton in Hr as ->.
      vm_compute in Hp. injection Hp as <-. vm_compute in Hd.
      injection Hd as <-. reflexivity.
  - vm_compute. reflexivity.
  - discriminate.
  - exists l1, r, l2. split; [exact Hsplit|]. by rewrite Ha.
Defined.

Lemma driver_model_invariant_witness :
  driver.status
    (driver.assign_route [demo.pickup_1] None (driver.new "d1" demo.home))
  = driver.EN_ROUTE
  /\ driver.route
       (driver.assign_route [demo.pickup_1] None (driver.new "d1" demo.home))
     = Some [demo.pickup_1].
Proof.
  destruct (driver_model_invariant
              (driver.assign_route [demo.pickup_1] None
                 (driver.new "d1" demo.home))) as [_ Hroute].
  - apply driver.reachable_assign_route; [apply driver.reachable_new|done].
  - split; reflexivity.
Defined.

Lemma first_tick_after_dispatch_witness :
  exists a1,
    tick 1%float samples.dispatched = Ok a1
    /\ driver.location (driver_agent.driver a1) = demo.home
    /\ driver_agent._cursor a1 = 1.
Proof.
  destruct (first_tick_after_dispatch default_settings
              demo.haversine_distance_m (demo.new_agent "d1" demo.home)
              demo.pickup_2 demo.dropoff_2 (Some [1]) 1%float 0%float)
    as (a1 & Ht & Hloc & _ & Hcur & _).
  - vm_compute. reflexivity.
  - vm_compute. reflexivity.
  - exists a1. by repeat split.
Defined.

Lemma greedy_routes_shape_witness :
  length [[0; 2; 1]%Z; [0%Z]] = 2
  /\ Forall (fun route => head route = Some 0%Z) [[0; 2; 1]%Z; [0%Z]].
Proof.
  destruct (greedy_routes_shape samples.durations 2 0 [[0; 2; 1]%Z; [0%Z]])
    as [Hlen Hall].
  - vm_compute. reflexivity.
  - split; [exact Hlen|]. eapply Forall_impl; [exact Hall|].
    by intros route [? _].
Defined.

Lemma greedy_routes_partition_witness :
  NoDup (route_optimizer.visited [[0; 2; 1]%Z; [0%Z]])
  /\ 1%Z ∈ route_optimizer.visited [[0; 2; 1]%Z; [0%Z]].
Proof.
  destruct (greedy_routes_partition samples.durations 2 0
              [[0; 2; 1]%Z; [0%Z]]) as (Hnd & _ & Hall).
  - vm_compute. reflexivity.
  - split; [exact Hnd|]. apply (Hall ltac:(lia) 1); [cbn; lia|lia].
Defined.

Lemma greedy_returns_witness :
  exists rs,
    route_optimizer._solve_greedy samples.durations 2 0 = Some (Ok rs).
Proof.
  apply greedy_returns. split; [|cbn; lia].
  repeat constructor.
Defined.

Lemma greedy_depot_out_of_range_witness :
  route_optimizer._solve_greedy samples.durations 1 3
  = Some (Raise IndexError).
Proof.
  apply greedy_depot_out_of_range; [discriminate|lia|cbn; lia].
Defined.


Lemma greedy_first_route_nearest_witness :
  exists added : list nat,
    [0; 2; 1]%Z = 0%Z :: (Z.of_nat <$> added).
Proof.
  destruct (greedy_first_route_nearest samples.durations 1 0
              [0; 2; 1]%Z []) as (added & Hroute & _).
  - repeat constructor.
  - vm_compute. reflexivity.
  - by exists added.
Defined.

End Samples.
